(** * Popularity computation and ranked listing of posts

    A shallow embedding of [PostsPopularity.execute]
    (application/usecases/comp/post.ts) and of the handlers of
    [PostController] (interface/controllers/post.ts): [readAll], [create],
    [update] and [delete], together with the part of the JavaScript runtime
    they rely on: IEEE-754 binary64 numbers, strings, and the array methods
    [filter], [find], [map] and [sort]. *)

From Stdlib Require Import ZArith List String Ascii Bool Lia.
From Stdlib Require Import Permutation Sorted.
From Stdlib Require Import SpecFloat.
Import ListNotations.

Set Implicit Arguments.
Local Open Scope Z_scope.

(* ================================================================== *)
(** * Part I: the program *)

(** ** JavaScript numbers

    A JavaScript Number is an IEEE-754 binary64 value.  The operations are
    those of [SpecFloat] at precision 53 and maximal exponent 1024,
    rounding to nearest, ties to even. *)

Module JsNumber.

Definition prec : Z := 53.
Definition emax : Z := 1024.

Definition Number : Type := spec_float.

Definition NaN : Number := S754_nan.
Definition Infinity : Number := S754_infinity false.
Definition zero : Number := S754_zero false.
Definition neg_zero : Number := S754_zero true.

(** The Number with the value of an integer: the [length] of an array, the
    time value of a date, a numeric literal. *)
Definition of_Z (z : Z) : Number := binary_normalize prec emax z 0 false.
Definition of_nat (n : nat) : Number := of_Z (Z.of_nat n).

Definition one : Number := of_Z 1.

(** [x / y] and [x - y]. *)
Definition div (x y : Number) : Number := SFdiv prec emax x y.
Definition sub (x y : Number) : Number := SFsub prec emax x y.

(** [x >= y]: false as soon as one side is NaN. *)
Definition ge (x y : Number) : bool := SFleb y x.

(** [x === y] on Numbers: NaN differs from itself, the two zeros are
    equal. *)
Definition strict_eq (x y : Number) : bool := SFeqb x y.

Definition is_nan (x : Number) : bool :=
  match x with S754_nan => true | _ => false end.

(** ToBoolean: a Number is falsy when it is a zero or NaN. *)
Definition truthy (x : Number) : bool :=
  match x with
  | S754_zero _ | S754_nan => false
  | _ => true
  end.

(** [x || y] for a Number [x]. *)
Definition or_else (x y : Number) : Number := if truthy x then x else y.

(** What a sort sees of the Number [v] returned by its comparator:
    negative, zero or positive, NaN counting as zero (SortCompare). *)
Definition sign (v : Number) : comparison :=
  match SFcompare v zero with
  | Some c => c
  | None => Eq
  end.

(** *** The value of a Number

    A finite binary64 number is an integer multiple of the smallest
    positive one, [2 ^ emin]; [units] is that integer. *)

Inductive Ext : Type :=
| NegInf
| Real (u : Z)
| PosInf.

Definition Ext_compare (a b : Ext) : comparison :=
  match a, b with
  | NegInf, NegInf => Eq
  | NegInf, _ => Lt
  | _, NegInf => Gt
  | PosInf, PosInf => Eq
  | PosInf, _ => Gt
  | _, PosInf => Lt
  | Real u, Real v => Z.compare u v
  end.

Definition Ext_le (a b : Ext) : Prop := Ext_compare a b <> Gt.

Definition units (s : bool) (m : positive) (e : Z) : Z :=
  cond_Zopp s (Zpos m * 2 ^ (e - emin prec emax)).

(** The value of a Number that is not NaN (NaN is sent to 0, and no
    statement looks at it). *)
Definition value (x : Number) : Ext :=
  match x with
  | S754_zero _ => Real 0
  | S754_infinity s => if s then NegInf else PosInf
  | S754_nan => Real 0
  | S754_finite s m e => Real (units s m e)
  end.

(** Finite Numbers produced by the arithmetic have an exponent of at
    least [emin]. *)
Definition wf (x : Number) : Prop :=
  match x with
  | S754_finite _ _ e => emin prec emax <= e
  | _ => True
  end.

(** A Number a comparator can subtract with a meaningful sign. *)
Definition usable (x : Number) : Prop := wf x /\ is_nan x = false.

(** The value of the integer [z], in units. *)
Definition Z_units (z : Z) : Z := z * 2 ^ (- emin prec emax).

End JsNumber.

Export JsNumber(Number).

(** ** JavaScript strings *)

(** [s.includes(sub)]: [sub] occurs in [s] as a contiguous run. *)
Fixpoint includes (s sub : string) : bool :=
  if prefix sub s then true
  else match s with
       | EmptyString => false
       | String _ s' => includes s' sub
       end.

(** The two locale-dependent string methods the controller calls.  Their
    tables belong to the JavaScript engine (Unicode case mapping, ICU
    collation), so the program is parameterised by them. *)
Class JsStrings : Type := {
  toLowerCase : string -> string;
  localeCompare : string -> string -> Number
}.

(** ToBoolean of a value of type [string | undefined]. *)
Definition truthy_string (s : option string) : bool :=
  match s with
  | None => false
  | Some EmptyString => false
  | Some _ => true
  end.

(** ** JavaScript arrays *)

(** [Array.prototype.sort(comparefn)].  ECMAScript leaves the algorithm to
    the engine and fixes the result for a consistent comparator: the
    elements of the array, ordered by the sign of [comparefn a b], those that
    compare equal in their original order.  Insertion from the right is such
    a sort ([Array_sort_perm], [Array_sort_sorted], [Array_sort_stable]
    below), and any other returns the same list ([stable_sorted_unique]).
    The array is sorted in place; the controller uses the returned array
    only, so the model returns the sorted list. *)
Fixpoint sort_insert (A : Type) (comparefn : A -> A -> Number) (x : A)
    (l : list A) : list A :=
  match l with
  | [] => [x]
  | y :: l' =>
      match JsNumber.sign (comparefn x y) with
      | Gt => y :: sort_insert comparefn x l'
      | _ => x :: l
      end
  end.

Definition Array_sort (A : Type) (comparefn : A -> A -> Number)
    (l : list A) : list A :=
  fold_right (sort_insert comparefn) [] l.

(** ** Domain entities (domain/entities) *)

(** A [Date] holds a time value: an integer number of milliseconds since
    the epoch, at most 8.64e15 in magnitude.  (An invalid date, whose time
    value is NaN, is not a stored timestamp and is left out.)  [getTime] is
    the time value as a Number. *)
Definition Date_max : Z := 8640000000000000.

Record Date : Type := {
  timeValue : Z;
  timeValue_in_range : (Z.abs timeValue <=? Date_max) = true
}.

Definition getTime (d : Date) : Number := JsNumber.of_Z (timeValue d).

Record LikePost : Type := {
  like_id : Z;
  userId : Z;
  postId : Z;
  createdAt : Date
}.

Record Post : Type := {
  id : Z;
  title : string;
  content : option string;
  deleted : bool;
  authorId : Z;
  date : Date;
  authorName : string;
  likes : option (list LikePost)
}.

Record User : Type := {
  user_id : Z;
  name : string;
  email : string;
  password : string;
  role : string;
  banned : bool
}.

(** The element type of the result of [PostsPopularity.execute]:
    [{id: number, popularity: number}]. *)
Record PostPopularity : Type := {
  pp_id : Z;
  popularity : Number
}.

(** ** Repositories (application/repositories)

    The calls of the repository interfaces, and a world that holds what the
    collaborators store and the calls made so far. *)

Inductive Call : Type :=
| PostRepository_create
| PostRepository_readAll
| PostRepository_readById
| PostRepository_delete
| PostRepository_update
| UserRepository_readAll.

Record World : Type := {
  stored_posts : list Post;
  stored_users : list User;
  calls : list Call
}.

(** Computations that talk to the repositories. *)
Definition IO (A : Type) : Type := World -> A * World.

Definition ret (A : Type) (a : A) : IO A := fun w => (a, w).

Definition bind (A B : Type) (m : IO A) (k : A -> IO B) : IO B :=
  fun w => let (a, w') := m w in k a w'.

Notation "x <- m ;; k" := (bind m (fun x => k))
  (at level 61, m at next level, right associativity).

Definition called (c : Call) (w : World) : World :=
  {| stored_posts := stored_posts w;
     stored_users := stored_users w;
     calls := calls w ++ [c] |}.

(** Modelled from the spec: the adapters behind [PostRepository.readAll] and
    [UserRepository.readAll] (infrastructure/repositories) are missing from
    the sources.  Each is a read-only fetch that returns the stored
    snapshot. *)
Definition postRepository_readAll : IO (list Post) :=
  fun w => (stored_posts w, called PostRepository_readAll w).

Definition userRepository_readAll : IO (list User) :=
  fun w => (stored_users w, called UserRepository_readAll w).

(** ** Use cases (application/usecases) *)

(** The callback of [posts.map] in [PostsPopularity.execute]:
<<
    const likes = post.likes?.length || 0;
    const totalUsers = users.length;
    const popularity = likes / (totalUsers-1)
    if(popularity >= 0) return { id: post.id, popularity };
    return { id: post.id, popularity: 0 };
>> *)
Definition popularityOf (users : list User) (post : Post) : PostPopularity :=
  let likes :=
    match likes post with
    | None => JsNumber.zero
    | Some ls => JsNumber.or_else (JsNumber.of_nat (List.length ls)) JsNumber.zero
    end in
  let totalUsers := JsNumber.of_nat (List.length users) in
  let popularity := JsNumber.div likes (JsNumber.sub totalUsers JsNumber.one) in
  if JsNumber.ge popularity JsNumber.zero
  then {| pp_id := id post; popularity := popularity |}
  else {| pp_id := id post; popularity := JsNumber.zero |}.

(** [computePopularity(posts, users)]: what [execute] returns once both
    snapshots are fetched. *)
Definition computePopularity (posts : list Post) (users : list User)
    : list PostPopularity :=
  map (popularityOf users) posts.

Definition PostsPopularity_execute : IO (list PostPopularity) :=
  posts <- postRepository_readAll ;;
  users <- userRepository_readAll ;;
  ret (computePopularity posts users).

(** Modelled from the spec: [ReadAllPosts.execute]
    (application/usecases/atomic/post) is missing from the sources; it
    fetches the full post snapshot from the post repository. *)
Definition ReadAllPosts_execute : IO (list Post) := postRepository_readAll.

(** ** The controller (interface/controllers/post) *)

Section Controller.
Context {strings : JsStrings}.

(** The callback of [posts.filter]:
<<
    post.title.toLowerCase().includes(searchQuery.toLowerCase()) ||
    post.content?.toLowerCase().includes(searchQuery.toLowerCase())
>> *)
Definition matchesSearch (searchQuery : string) (post : Post) : bool :=
  includes (toLowerCase (title post)) (toLowerCase searchQuery)
  || match content post with
     | None => false
     | Some c => includes (toLowerCase c) (toLowerCase searchQuery)
     end.

Definition searchFilter (searchQuery : option string) (posts : list Post)
    : list Post :=
  if truthy_string searchQuery
  then match searchQuery with
       | Some q => filter (matchesSearch q) posts
       | None => posts
       end
  else posts.

(** [postsPopularity.find(p => p.id === a.id)?.popularity || 0] *)
Definition popularityLookup (postsPopularity : list PostPopularity) (a : Post)
    : Number :=
  match find (fun p => pp_id p =? id a) postsPopularity with
  | Some p => JsNumber.or_else (popularity p) JsNumber.zero
  | None => JsNumber.zero
  end.

(** The comparators handed to [sort]:
<<
    (a, b) => a.title.localeCompare(b.title)
    (a, b) => b.title.localeCompare(a.title)
    (a, b) => { ...; return order === 'popularidad-asc'
                  ? popularityA - popularityB : popularityB - popularityA; }
    (a, b) => b.date.getTime() - a.date.getTime()
>> *)
Definition byTitleAsc (a b : Post) : Number :=
  localeCompare (title a) (title b).

Definition byTitleDesc (a b : Post) : Number :=
  localeCompare (title b) (title a).

Definition byPopularity (order : string)
    (postsPopularity : list PostPopularity) (a b : Post) : Number :=
  let popularityA := popularityLookup postsPopularity a in
  let popularityB := popularityLookup postsPopularity b in
  if (order =? "popularidad-asc")%string
  then JsNumber.sub popularityA popularityB
  else JsNumber.sub popularityB popularityA.

Definition byDateDesc (a b : Post) : Number :=
  JsNumber.sub (getTime (date b)) (getTime (date a)).

(** [PostController.readAll]: [order] is [req.params.order], [searchQuery]
    is [req.query.q], and the result is the body handed to [res.json]. *)
Definition readAll (order : option string) (searchQuery : option string)
    : IO (list Post) :=
  posts <- ReadAllPosts_execute ;;
  let posts := searchFilter searchQuery posts in
  match order with
  | Some o =>
      if (o =? "nombre-asc")%string then
        ret (Array_sort byTitleAsc posts)
      else if (o =? "nombre-desc")%string then
        ret (Array_sort byTitleDesc posts)
      else if ((o =? "popularidad-asc") || (o =? "popularidad-desc"))%string then
        postsPopularity <- PostsPopularity_execute ;;
        ret (Array_sort (byPopularity o postsPopularity) posts)
      else
        ret (Array_sort byDateDesc posts)
  | None => ret (Array_sort byDateDesc posts)
  end.

(** [listPosts(orderKey, searchQuery)] over a given store: the posts that
    [readAll] answers with. *)
Definition listPosts (order : option string) (searchQuery : option string)
    (w : World) : list Post :=
  fst (readAll order searchQuery w).

End Controller.

(** ** Arrays as objects: [readAll] with its in-place sort

    [posts.sort(...)] sorts the array [posts] refers to and answers that
    same array.  To see what this does to the array the repository answered
    with, arrays of posts are objects here: a heap maps references to
    contents, and [readAll] is run on it. *)

Definition Ref : Type := nat.
Definition Heap : Type := list (list Post).

Definition heap_read (h : Heap) (r : Ref) : list Post := nth r h [].

Fixpoint heap_write (h : Heap) (r : Ref) (a : list Post) : Heap :=
  match h, r with
  | [], _ => []
  | _ :: h', O => a :: h'
  | x :: h', S r' => x :: heap_write h' r' a
  end.

(** A new array: its reference is the first free one. *)
Definition heap_alloc (h : Heap) (a : list Post) : Ref * Heap :=
  (List.length h, h ++ [a]).

(** Modelled from the spec: the adapter behind [PostRepository.readAll]
    (infrastructure/repositories) is missing from the sources; it answers
    with an array that holds the stored posts.  Both kinds of adapter are
    covered: one that keeps the posts in an array of its own and answers
    with that very array (as the mock of popularity.test.ts does), and one
    that builds a new array from its rows on every call. *)
Inductive PostSource : Type :=
| OwnArray (r : Ref)
| Rows (rows : list Post).

Record Machine : Type := {
  heap : Heap;
  post_source : PostSource;
  user_rows : list User;
  log : list Call
}.

(** The posts a fetch answers with, on this machine. *)
Definition snapshot (m : Machine) : list Post :=
  match post_source m with
  | OwnArray r => heap_read (heap m) r
  | Rows rows => rows
  end.

(** The reference of an own array is one of the heap. *)
Definition valid (m : Machine) : Prop :=
  match post_source m with
  | OwnArray r => (r < List.length (heap m))%nat
  | Rows _ => True
  end.

(** The world of the controller, as this machine shows it. *)
Definition world_of (m : Machine) : World :=
  {| stored_posts := snapshot m;
     stored_users := user_rows m;
     calls := log m |}.

(** [m'] has the arrays of [m] as they were, and maybe new ones. *)
Definition preserves (m m' : Machine) : Prop :=
  post_source m' = post_source m
  /\ user_rows m' = user_rows m
  /\ (List.length (heap m) <= List.length (heap m'))%nat
  /\ (forall r, (r < List.length (heap m))%nat ->
                heap_read (heap m') r = heap_read (heap m) r).

Definition Run (A : Type) : Type := Machine -> A * Machine.

Definition unit_run (A : Type) (a : A) : Run A := fun m => (a, m).

Definition bind_run (A B : Type) (c : Run A) (k : A -> Run B) : Run B :=
  fun m => let (a, m') := c m in k a m'.

Notation "x <<- c ;; k" := (bind_run c (fun x => k))
  (at level 61, c at next level, right associativity).

Definition fetchPosts : Run Ref :=
  fun m =>
    match post_source m with
    | OwnArray r =>
        (r, {| heap := heap m; post_source := post_source m;
               user_rows := user_rows m;
               log := log m ++ [PostRepository_readAll] |})
    | Rows rows =>
        let (r, h) := heap_alloc (heap m) rows in
        (r, {| heap := h; post_source := post_source m;
               user_rows := user_rows m;
               log := log m ++ [PostRepository_readAll] |})
    end.

Definition fetchUsers : Run (list User) :=
  fun m =>
    (user_rows m,
     {| heap := heap m; post_source := post_source m;
        user_rows := user_rows m;
        log := log m ++ [UserRepository_readAll] |}).

(** The elements of the array [r], as [map] and [filter] read them. *)
Definition elements (r : Ref) : Run (list Post) :=
  fun m => (heap_read (heap m) r, m).

(** [posts.filter(callback)]: a new array. *)
Definition Array_filter_new (callback : Post -> bool) (r : Ref) : Run Ref :=
  fun m =>
    let (r', h) := heap_alloc (heap m) (filter callback (heap_read (heap m) r)) in
    (r', {| heap := h; post_source := post_source m;
            user_rows := user_rows m; log := log m |}).

(** [posts.sort(comparefn)]: the array itself, sorted where it is. *)
Definition Array_sort_in_place (comparefn : Post -> Post -> Number) (r : Ref)
    : Run Ref :=
  fun m =>
    (r, {| heap := heap_write (heap m) r
                     (Array_sort comparefn (heap_read (heap m) r));
           post_source := post_source m;
           user_rows := user_rows m; log := log m |}).

(** [PostsPopularity.execute]: [posts.map] reads the fetched array and
    builds a new array of scores. *)
Definition PostsPopularity_execute_on_heap : Run (list PostPopularity) :=
  posts <<- fetchPosts ;;
  users <<- fetchUsers ;;
  contents <<- elements posts ;;
  unit_run (computePopularity contents users).

Section Controller_on_heap.
Context {strings : JsStrings}.

(** [PostController.readAll]; the result is the array handed to
    [res.json]. *)
Definition readAll_on_heap (order : option string)
    (searchQuery : option string) : Run Ref :=
  posts <<- fetchPosts ;;
  posts <<- (if truthy_string searchQuery
             then match searchQuery with
                  | Some q => Array_filter_new (matchesSearch q) posts
                  | None => unit_run posts
                  end
             else unit_run posts) ;;
  match order with
  | Some o =>
      if (o =? "nombre-asc")%string then
        Array_sort_in_place byTitleAsc posts
      else if (o =? "nombre-desc")%string then
        Array_sort_in_place byTitleDesc posts
      else if ((o =? "popularidad-asc") || (o =? "popularidad-desc"))%string then
        postsPopularity <<- PostsPopularity_execute_on_heap ;;
        Array_sort_in_place (byPopularity o postsPopularity) posts
      else
        Array_sort_in_place byDateDesc posts
  | None => Array_sort_in_place byDateDesc posts
  end.

End Controller_on_heap.

(** ** The write handlers of the controller (interface/controllers/post)

    [create], [update], [delete] and the two private helpers of [delete].
    A handler talks to its collaborators and to Express; what it does is the
    sequence of its effects: the calls it makes, the responses it sends, the
    errors it hands to [next]. *)

(** [req.user].  The declaration (interface/express) is not among the
    sources; the handlers read its [id] and its [role]. *)
Record UserJWT : Type := {
  jwt_id : Z;
  jwt_role : string
}.

(** The errors the handlers throw (domain/errors/main), each built from a
    message. *)
Inductive HttpError : Type :=
| UnauthorizedError (message : string)
| FindDbError (message : string).

(** A response body: [{message: ...}] or a post. *)
Inductive Body : Type :=
| Message (message : string)
| PostBody (post : Post).

Section Handlers.

(** The values of a request body are arbitrary JSON: [Value].  [parseInt]
    converts its argument to a string first; it answers an integer or NaN
    ([None]). *)
Variable Value : Type.
Variable ToString : Value -> string.
Variable parseInt : string -> option Z.

Inductive Effect : Type :=
| ReadById_execute (id : option Z)
| CreatePost_execute (title content authorName : Value) (userId : Z)
| UpdatePost_execute (id : option Z) (title content : Value)
| postRepository_delete (id : option Z)
| postRepository_update_deleted (id : option Z) (deleted : bool)
| Respond (status : Z) (body : Body)
| Next (error : HttpError)
| Unhandled (error : HttpError).

(** What the collaborators answer when their promises are fulfilled (the
    use cases of application/usecases/atomic/post and the repository are not
    among the sources, and a handler only forwards their answers). *)
Record Collaborators : Type := {
  found : option Z -> option Post;
  created : Value -> Value -> Value -> Z -> Post;
  updated : option Z -> Value -> Value -> Post;
  removed : option Z -> Post;
  toggled : option Z -> bool -> Post
}.

Variable collaborators : Collaborators.

(** An [async] function: the effects so far, and how its promise settles. *)
Inductive Completion (A : Type) : Type :=
| Fulfilled (a : A)
| Rejected (error : HttpError).

Definition Async (A : Type) : Type := (list Effect * Completion A)%type.

Definition done (A : Type) (a : A) : Async A := ([], Fulfilled a).

Definition throw (A : Type) (error : HttpError) : Async A :=
  ([], Rejected A error).

Definition andThen (A B : Type) (m : Async A) (k : A -> Async B) : Async B :=
  match m with
  | (t, Fulfilled a) => let (t', c) := k a in (t ++ t', c)
  | (t, Rejected _ error) => (t, Rejected B error)
  end.

Notation "x <~ m ;; k" := (andThen m (fun x => k))
  (at level 61, m at next level, right associativity).
Notation "m ;;; k" := (andThen m (fun _ => k))
  (at level 61, right associativity).

(** [await collaborator.method(...)] *)
Definition await (A : Type) (call : Effect) (answer : A) : Async A :=
  ([call], Fulfilled answer).

(** [res.status(status).json(body)] *)
Definition res_status_json (status : Z) (body : Body) : Async unit :=
  ([Respond status body], Fulfilled tt).

(** [try { body } catch (error) { next(error) }] *)
Definition try_catch_next (body : Async unit) : Async unit :=
  match body with
  | (t, Rejected _ error) => (t ++ [Next error], Fulfilled tt)
  | fulfilled => fulfilled
  end.

(** A call of an [async] function whose promise is dropped: the caller
    goes on, and a rejection is handled by nobody. *)
Definition not_awaited (call : Async unit) : Async unit :=
  match call with
  | (t, Rejected _ error) => (t ++ [Unhandled error], Fulfilled tt)
  | fulfilled => fulfilled
  end.

(** [create]: [title], [content], [authorName] are the fields of
    [req.body], [user] is [req.user]. *)
Definition create (title content authorName : Value) (user : option UserJWT)
    : Async unit :=
  try_catch_next
    match user with
    | None =>
        res_status_json 401 (Message "Sin autorización: Token no provisto") ;;;
        throw unit (UnauthorizedError "user not set in jwt")
    | Some user =>
        let userId := jwt_id user in
        post <~ await (CreatePost_execute title content authorName userId)
                  (created collaborators title content authorName userId) ;;
        res_status_json 201 (PostBody post)
    end.

(** [!req.user || req.user.id !== parseInt(userId)] *)
Definition update_refused (userId : Value) (user : option UserJWT) : bool :=
  match user with
  | None => true
  | Some user =>
      match parseInt (ToString userId) with
      | Some n => negb (jwt_id user =? n)
      | None => true
      end
  end.

(** [update]: [id] is [req.params.id]; [title], [content], [userId] are the
    fields of [req.body]. *)
Definition update (id : string) (title content userId : Value)
    (user : option UserJWT) : Async unit :=
  try_catch_next
    (if update_refused userId user then
       res_status_json 401 (Message "Unauthorized") ;;;
       throw unit
         (UnauthorizedError
            ("user jwt " ++ match user with
                            | None => "not set"
                            | Some _ => "invalid"
                            end))
     else
       post <~ await (UpdatePost_execute (parseInt id) title content)
                 (updated collaborators (parseInt id) title content) ;;
       res_status_json 200 (PostBody post)).

Definition hardDelete (id : option Z) (user : UserJWT) : Async unit :=
  if (jwt_role user =? "ADMIN")%string then
    deletedPost <~ await (postRepository_delete id)
                     (removed collaborators id) ;;
    res_status_json 200 (PostBody deletedPost)
  else
    res_status_json 403 (Message "Forbidden") ;;;
    throw unit (UnauthorizedError "user not authorized for hardDelete").

Definition softDelete (post : Post) (id : option Z) (user : UserJWT)
    : Async unit :=
  if (jwt_id user =? authorId post) || (jwt_role user =? "ADMIN")%string then
    deletedPost <~ await (postRepository_update_deleted id
                            (negb (deleted post)))
                     (toggled collaborators id (negb (deleted post))) ;;
    res_status_json 200 (PostBody deletedPost)
  else
    res_status_json 403 (Message "Forbidden") ;;;
    throw unit (UnauthorizedError "user not authorized for softDelete").

(** [delete]: [id] is [req.params.id], [deleteType] is [req.query.type]
    when it is a string. *)
Definition delete (id : string) (deleteType : option string)
    (user : option UserJWT) : Async unit :=
  try_catch_next
    (post <~ await (ReadById_execute (parseInt id))
               (found collaborators (parseInt id)) ;;
     match post with
     | None =>
         res_status_json 404 (Message "Post not found") ;;;
         throw unit (FindDbError "Post")
     | Some post =>
         match user with
         | None =>
             res_status_json 401 (Message "Unauthorized") ;;;
             throw unit (UnauthorizedError "user jwt not set")
         | Some user =>
             match deleteType with
             | Some type =>
                 if (type =? "hard")%string then
                   not_awaited (hardDelete (parseInt id) user)
                 else if (type =? "soft")%string then
                   not_awaited (softDelete post (parseInt id) user)
                 else
                   res_status_json 400 (Message "Invalid delete type")
             | None => res_status_json 400 (Message "Invalid delete type")
             end
         end
     end).

(** The effects that ask a collaborator to write. *)
Definition is_write (e : Effect) : bool :=
  match e with
  | CreatePost_execute _ _ _ _ | UpdatePost_execute _ _ _
  | postRepository_delete _ | postRepository_update_deleted _ _ => true
  | _ => false
  end.

Definition is_response (e : Effect) : bool :=
  match e with
  | Respond _ _ => true
  | _ => false
  end.

End Handlers.

Arguments ReadById_execute {Value} id.
Arguments postRepository_delete {Value} id.
Arguments postRepository_update_deleted {Value} id deleted.
Arguments Respond {Value} status body.
Arguments Next {Value} error.
Arguments Unhandled {Value} error.

(** ** Vocabulary of the statements *)

(** [sub] occurs in [s] as a contiguous run of characters. *)
Definition occurs_in (sub s : string) : Prop :=
  exists before after : string, s = (before ++ sub ++ after)%string.

(** The number of likes attached to a post, 0 when the collection is
    absent. *)
Definition likeCount (post : Post) : nat :=
  match likes post with
  | None => O
  | Some ls => List.length ls
  end.

(** The clamp rule: keep a score that is [>= 0], replace any other by 0. *)
Definition clamp (rawScore : Number) : Number :=
  if JsNumber.ge rawScore JsNumber.zero then rawScore else JsNumber.zero.

(** [likeCount / (totalUserCount - 1)], in Number arithmetic. *)
Definition rawScore (likeCount totalUserCount : nat) : Number :=
  JsNumber.div (JsNumber.of_nat likeCount)
    (JsNumber.sub (JsNumber.of_nat totalUserCount) JsNumber.one).

(** A comparator is consistent when its signs are those of a total
    preorder: swapping the arguments swaps the sign, and "not after" is
    transitive. *)
Record Consistent (A : Type) (comparefn : A -> A -> Number) : Prop := {
  consistent_antisym : forall a b,
    JsNumber.sign (comparefn b a) = CompOpp (JsNumber.sign (comparefn a b));
  consistent_trans : forall a b c,
    JsNumber.sign (comparefn a b) <> Gt ->
    JsNumber.sign (comparefn b c) <> Gt ->
    JsNumber.sign (comparefn a c) <> Gt
}.

(** [a] and [b] compare equal. *)
Definition tied (A : Type) (comparefn : A -> A -> Number) (a b : A) : bool :=
  match JsNumber.sign (comparefn a b) with
  | Eq => true
  | _ => false
  end.

(** No two elements at different positions of [l] compare equal. *)
Definition NoTies (A : Type) (comparefn : A -> A -> Number) (l : list A)
    : Prop :=
  ForallOrdPairs (fun a b => JsNumber.sign (comparefn a b) <> Eq) l.

(** The same post with another [deleted] flag. *)
Definition with_deleted (flag : bool) (post : Post) : Post :=
  {| id := id post; title := title post; content := content post;
     deleted := flag; authorId := authorId post; date := date post;
     authorName := authorName post; likes := likes post |}.

(** The order keys, as the [switch] of the controller groups them. *)
Definition isPopularityKey (order : option string) : bool :=
  match order with
  | Some o => ((o =? "popularidad-asc") || (o =? "popularidad-desc"))%string
  | None => false
  end.

Definition isNameKey (order : option string) : bool :=
  match order with
  | Some o => ((o =? "nombre-asc") || (o =? "nombre-desc"))%string
  | None => false
  end.

(** The comparator that [readAll] hands to [sort] for an order key. *)
Definition orderComparator {strings : JsStrings} (order : option string)
    (w : World) : Post -> Post -> Number :=
  match order with
  | Some o =>
      if (o =? "nombre-asc")%string then byTitleAsc
      else if (o =? "nombre-desc")%string then byTitleDesc
      else if ((o =? "popularidad-asc") || (o =? "popularidad-desc"))%string
      then byPopularity o
             (computePopularity (stored_posts w) (stored_users w))
      else byDateDesc
  | None => byDateDesc
  end.

(** ** A concrete string runtime for ASCII text

    Used to run the program on examples: letters A-Z are lowered, and
    strings are compared by code units. *)

Definition ascii_toLowerCase (c : ascii) : ascii :=
  let n := N_of_ascii c in
  if ((65 <=? n) && (n <=? 90))%N then ascii_of_N (n + 32) else c.

Fixpoint ascii_string_toLowerCase (s : string) : string :=
  match s with
  | EmptyString => EmptyString
  | String c s' => String (ascii_toLowerCase c) (ascii_string_toLowerCase s')
  end.

Definition codeUnitCompare (s t : string) : Number :=
  match String.compare s t with
  | Lt => JsNumber.of_Z (-1)
  | Eq => JsNumber.zero
  | Gt => JsNumber.of_Z 1
  end.

#[export] Instance AsciiStrings : JsStrings := {|
  toLowerCase := ascii_string_toLowerCase;
  localeCompare := codeUnitCompare
|}.

(** ** Sample data

    The fixtures of application/test/post/popularity.test.ts and a few
    stores to run the controller on. *)

Module Sample.

Definition at_time_1000 : Date :=
  {| timeValue := 1000; timeValue_in_range := eq_refl |}.
Definition at_time_2000 : Date :=
  {| timeValue := 2000; timeValue_in_range := eq_refl |}.
Definition at_time_3000 : Date :=
  {| timeValue := 3000; timeValue_in_range := eq_refl |}.

Definition like (likeId user post : Z) : LikePost :=
  {| like_id := likeId; userId := user; postId := post;
     createdAt := at_time_1000 |}.

Definition user (n : Z) (userName mail : string) : User :=
  {| user_id := n; name := userName; email := mail; password := "password";
     role := "user"; banned := false |}.

(** "debe calcular correctamente la popularidad de los posts" *)
Definition mockPosts : list Post :=
  [ {| id := 1; title := "Post 1"; content := Some "Contenido 1"%string;
       deleted := false; authorId := 1; date := at_time_1000;
       authorName := "Autor 1"; likes := Some [like 2 2 1; like 3 3 1] |};
    {| id := 2; title := "Post 2"; content := Some "Contenido 2"%string;
       deleted := false; authorId := 2; date := at_time_1000;
       authorName := "Autor 2"; likes := Some [like 1 1 2] |} ].

Definition mockUsers : list User :=
  [ user 1 "Usuario 1" "usuario1@example.com";
    user 2 "Usuario 2" "usuario2@example.com";
    user 3 "Usuario 3" "usuario3@example.com" ].

(** "debe manejar posts sin likes" *)
Definition mockPostsWithoutLikes : list Post :=
  [ {| id := 1; title := "Post sin likes"; content := Some "Contenido"%string;
       deleted := false; authorId := 1; date := at_time_1000;
       authorName := "Autor 1"; likes := None |} ].

Definition mockTwoUsers : list User :=
  [ user 1 "Usuario 1" "usuario1@example.com";
    user 2 "Usuario 2" "usuario2@example.com" ].

(** Three posts with 2, 1 and 0 likes, different titles and dates; the
    second is soft-deleted and has no content. *)
Definition banana : Post :=
  {| id := 1; title := "Banana"; content := Some "A yellow FRUIT"%string;
     deleted := false; authorId := 1; date := at_time_3000;
     authorName := "Ana"; likes := Some [like 1 2 1; like 2 3 1] |}.

Definition apple : Post :=
  {| id := 2; title := "apple fruit"; content := None;
     deleted := true; authorId := 2; date := at_time_1000;
     authorName := "Ben"; likes := Some [like 3 1 2] |}.

Definition cherry : Post :=
  {| id := 3; title := "Cherry"; content := Some "red"%string;
     deleted := false; authorId := 3; date := at_time_2000;
     authorName := "Cal"; likes := None |}.

Definition posts : list Post := [banana; apple; cherry].

(** Three users: one of them banned, one an administrator. *)
Definition users : list User :=
  [ user 1 "Ana" "ana@example.com";
    {| user_id := 2; name := "Ben"; email := "ben@example.com";
       password := "password"; role := "user"; banned := true |};
    {| user_id := 3; name := "Cal"; email := "cal@example.com";
       password := "password"; role := "admin"; banned := false |} ].

Definition world : World :=
  {| stored_posts := posts; stored_users := users; calls := [] |}.

(** Two different posts with the same title and the same number of
    likes. *)
Definition twin1 : Post :=
  {| id := 1; title := "Hola"; content := None; deleted := false;
     authorId := 1; date := at_time_1000; authorName := "Ana";
     likes := None |}.

Definition twin2 : Post :=
  {| id := 2; title := "Hola"; content := None; deleted := false;
     authorId := 2; date := at_time_2000; authorName := "Ben";
     likes := None |}.

Definition twins : World :=
  {| stored_posts := [twin1; twin2]; stored_users := users; calls := [] |}.

(** A repository that answers with its own array, and one that answers
    with a new array on every call; both hold [posts]. *)
Definition own_array_machine : Machine :=
  {| heap := [posts]; post_source := OwnArray 0%nat;
     user_rows := users; log := [] |}.

Definition rows_machine : Machine :=
  {| heap := []; post_source := Rows posts;
     user_rows := users; log := [] |}.

End Sample.

(** ** Sample requests

    Request values are strings here, [parseInt] reads a run of decimal
    digits, and the collaborators answer from [Sample.posts]. *)

Module SampleRequests.

Fixpoint decimal (s : string) (acc : Z) (seen : bool) : option Z :=
  match s with
  | EmptyString => if seen then Some acc else None
  | String c s' =>
      let n := Z.of_N (N_of_ascii c) in
      if (48 <=? n) && (n <=? 57)
      then decimal s' (10 * acc + (n - 48)) true
      else if seen then Some acc else None
  end.

Definition parseInt (s : string) : option Z := decimal s 0 false.

Definition lookup (i : option Z) : option Post :=
  match i with
  | Some n => find (fun p => id p =? n) Sample.posts
  | None => None
  end.

Definition collaborators : Collaborators string :=
  {| found := lookup;
     created := fun t c a uid =>
       {| id := 4; title := t; content := Some c; deleted := false;
          authorId := uid; date := Sample.at_time_3000; authorName := a;
          likes := None |};
     updated := fun i t c =>
       match lookup i with
       | Some p =>
           {| id := id p; title := t; content := Some c;
              deleted := deleted p; authorId := authorId p; date := date p;
              authorName := authorName p; likes := likes p |}
       | None => Sample.banana
       end;
     removed := fun i =>
       match lookup i with Some p => p | None => Sample.banana end;
     toggled := fun i flag =>
       match lookup i with
       | Some p => with_deleted flag p
       | None => Sample.banana
       end |}.

Definition admin : UserJWT := {| jwt_id := 3; jwt_role := "ADMIN" |}.
Definition ben : UserJWT := {| jwt_id := 2; jwt_role := "USER" |}.

End SampleRequests.

(* ================================================================== *)
(** * Part II: properties *)

Unset Implicit Arguments.

(** ** Binary rounding

    Facts about the rounding functions of [SpecFloat]; they hold for every
    format with [0 < prec < emax]. *)

Section Rounding_facts.
Variables prec emax : Z.
Hypothesis prec_pos : 0 < prec.
Hypothesis prec_lt_emax : prec < emax.

Local Abbreviation emin := (emin prec emax).
Local Abbreviation fexp := (fexp prec emax).

Lemma fexp_ge_emin e : emin <= fexp e.
Proof. unfold SpecFloat.fexp; lia. Qed.

Lemma digits2_pos_lower m : 2 ^ (Zpos (digits2_pos m) - 1) <= Zpos m.
Proof.
  induction m as [m IH | m IH | ]; cbn [digits2_pos].
  - rewrite Pos2Z.inj_succ. change (Zpos m~1) with (2 * Zpos m + 1).
    replace (Z.succ (Zpos (digits2_pos m)) - 1)
      with (Z.succ (Zpos (digits2_pos m) - 1)) by lia.
    rewrite Z.pow_succ_r by lia.
    set (t := 2 ^ _) in *. lia.
  - rewrite Pos2Z.inj_succ. change (Zpos m~0) with (2 * Zpos m).
    replace (Z.succ (Zpos (digits2_pos m)) - 1)
      with (Z.succ (Zpos (digits2_pos m) - 1)) by lia.
    rewrite Z.pow_succ_r by lia.
    set (t := 2 ^ _) in *. lia.
  - reflexivity.
Qed.

Lemma digits2_pos_shift m k :
  Zpos (digits2_pos (Pos.iter xO m k)) = Zpos (digits2_pos m) + Zpos k.
Proof.
  induction k as [ | k IH] using Pos.peano_ind.
  - cbn. lia.
  - rewrite Pos.iter_succ; cbn [digits2_pos]. lia.
Qed.

Lemma iter_pos_nat (A : Type) (f : A -> A) p x :
  iter_pos f p x = Nat.iter (Pos.to_nat p) f x.
Proof.
  revert x; induction p as [p IH | p IH | ]; intro x; cbn [iter_pos].
  - rewrite !IH, Pos2Nat.inj_xI.
    replace (S (2 * Pos.to_nat p))%nat
      with (Pos.to_nat p + (Pos.to_nat p + 1))%nat by lia.
    rewrite !Nat.iter_add. reflexivity.
  - rewrite !IH, Pos2Nat.inj_xO.
    replace (2 * Pos.to_nat p)%nat
      with (Pos.to_nat p + Pos.to_nat p)%nat by lia.
    rewrite Nat.iter_add. reflexivity.
  - reflexivity.
Qed.

Lemma shr_1_lower r k : 0 <= k -> 2 ^ Z.succ k <= shr_m r ->
  2 ^ k <= shr_m (shr_1 r).
Proof.
  intros Hk. rewrite Z.pow_succ_r by lia.
  destruct r as [m b s]; cbn [shr_m shr_1].
  assert (0 < 2 ^ k) by (apply Z.pow_pos_nonneg; lia).
  destruct m as [ | [p | p | ] | p]; cbn [shr_m]; lia.
Qed.

Lemma iter_shr_1_lower n r :
  2 ^ Z.of_nat n <= shr_m r -> 1 <= shr_m (Nat.iter n shr_1 r).
Proof.
  revert r; induction n as [ | n IH]; intros r H.
  - exact H.
  - rewrite Nat.iter_succ_r. apply IH, shr_1_lower; [lia | ].
    rewrite <- Nat2Z.inj_succ. exact H.
Qed.

Lemma shr_m_of_loc m l : shr_m (shr_record_of_loc m l) = m.
Proof. destruct l as [ | [ | | ]]; reflexivity. Qed.

(** Shifting a positive mantissa down to the format never loses it, as
    long as the exponent is not below [emin]. *)
Lemma shr_fexp_pos m e l : emin <= e ->
  1 <= shr_m (fst (shr_fexp prec emax (Zpos m) e l)) /\
  emin <= snd (shr_fexp prec emax (Zpos m) e l).
Proof.
  intros He. unfold shr_fexp, shr. cbn [Zdigits2].
  pose proof (digits2_pos_lower m) as Hd.
  set (d := Zpos (digits2_pos m)) in *.
  pose proof (shr_m_of_loc (Zpos m) l) as Hm.
  destruct (SpecFloat.fexp prec emax (d + e) - e) as [ | p | p] eqn:En;
    cbn [fst snd]; try (rewrite Hm; lia).
  split.
  - rewrite iter_pos_nat. apply iter_shr_1_lower.
    rewrite Hm, positive_nat_Z.
    unfold SpecFloat.fexp in En.
    assert (Zpos p <= d - 1) by lia.
    transitivity (2 ^ (d - 1)); [ | exact Hd].
    apply Z.pow_le_mono_r; lia.
  - rewrite <- En. pose proof (fexp_ge_emin (d + e)). lia.
Qed.

Lemma round_nearest_even_ge m l : m <= round_nearest_even m l.
Proof.
  destruct l as [ | [ | | ]]; cbn [round_nearest_even];
    try destruct (Z.even m); lia.
Qed.

(** Rounding a positive mantissa at an exponent of at least [emin] gives a
    finite number or an infinity of the requested sign. *)
Lemma binary_round_aux_pos s m e l : emin <= e ->
  (exists m' e', binary_round_aux prec emax s (Zpos m) e l = S754_finite s m' e'
                 /\ emin <= e')
  \/ binary_round_aux prec emax s (Zpos m) e l = S754_infinity s.
Proof.
  intros He. unfold binary_round_aux.
  destruct (shr_fexp_pos m e l He) as [H1 H2].
  destruct (shr_fexp prec emax (Zpos m) e l) as [mrs' e']; cbn [fst snd] in *.
  pose proof (round_nearest_even_ge (shr_m mrs') (loc_of_shr_record mrs')) as Hr.
  destruct (round_nearest_even (shr_m mrs') (loc_of_shr_record mrs'))
    as [ | m2 | m2]; try lia.
  destruct (shr_fexp_pos m2 e' loc_Exact H2) as [H3 H4].
  destruct (shr_fexp prec emax (Zpos m2) e' loc_Exact) as [mrs'' e''];
    cbn [fst snd] in *.
  destruct (shr_m mrs'') as [ | m3 | m3]; try lia.
  destruct (e'' <=? emax - prec); [left; eauto | right; reflexivity].
Qed.

Lemma shl_align_exponent m e e' : emin <= e -> emin <= e' ->
  emin <= snd (shl_align m e e').
Proof.
  intros. unfold shl_align. destruct (e' - e); cbn [snd]; lia.
Qed.

Lemma binary_round_pos s m e : emin <= e ->
  (exists m' e', binary_round prec emax s m e = S754_finite s m' e'
                 /\ emin <= e')
  \/ binary_round prec emax s m e = S754_infinity s.
Proof.
  intros He. unfold binary_round.
  pose proof (shl_align_exponent m e
    (SpecFloat.fexp prec emax (Zpos (digits2_pos m) + e)) He
    (fexp_ge_emin _)) as H.
  destruct (shl_align m e _) as [mz ez]; cbn [snd] in H.
  apply binary_round_aux_pos; exact H.
Qed.

(** Whatever the mantissa, the exponent of a finite result is at least
    [emin], and the sign is the one requested. *)
Lemma shr_fexp_exponent m e l : emin <= snd (shr_fexp prec emax m e l).
Proof.
  unfold shr_fexp, shr.
  pose proof (fexp_ge_emin (Zdigits2 m + e)).
  destruct (SpecFloat.fexp prec emax (Zdigits2 m + e) - e) eqn:En;
    cbn [snd]; lia.
Qed.

Lemma binary_round_aux_shape s m e l :
  match binary_round_aux prec emax s m e l with
  | S754_zero s' | S754_infinity s' => s' = s
  | S754_finite s' _ e' => s' = s /\ emin <= e'
  | S754_nan => True
  end.
Proof.
  unfold binary_round_aux.
  destruct (shr_fexp prec emax m e l) as [mrs' e'].
  pose proof (shr_fexp_exponent
    (round_nearest_even (shr_m mrs') (loc_of_shr_record mrs')) e' loc_Exact) as H.
  destruct (shr_fexp prec emax _ e' loc_Exact) as [mrs'' e'']; cbn [snd] in H.
  destruct (shr_m mrs''); auto.
  destruct (e'' <=? emax - prec); auto.
Qed.

(** A mantissa that already has [prec] digits at its own exponent is kept
    as it is. *)
Lemma shr_fexp_canonical m e :
  Zpos (digits2_pos m) = prec -> emin <= e ->
  shr_fexp prec emax (Zpos m) e loc_Exact
  = (Build_shr_record (Zpos m) false false, e).
Proof.
  intros Hd He. unfold shr_fexp, shr. cbn [Zdigits2 shr_record_of_loc].
  rewrite Hd. unfold SpecFloat.fexp.
  replace (Z.max (prec + e - prec) emin - e) with 0 by lia.
  reflexivity.
Qed.

Lemma binary_round_aux_canonical s m e :
  Zpos (digits2_pos m) = prec -> emin <= e -> e <= emax - prec ->
  binary_round_aux prec emax s (Zpos m) e loc_Exact = S754_finite s m e.
Proof.
  intros Hd He He'. unfold binary_round_aux.
  rewrite shr_fexp_canonical by assumption.
  cbn [shr_m loc_of_shr_record round_nearest_even].
  rewrite shr_fexp_canonical by assumption.
  cbn [shr_m]. apply Z.leb_le in He'. rewrite He'. reflexivity.
Qed.

Lemma shl_align_value m e e' : e' <= e ->
  Zpos (fst (shl_align m e e')) = Zpos m * 2 ^ (e - e').
Proof.
  intros H. unfold shl_align.
  destruct (e' - e) as [ | d | d] eqn:E; cbn [fst]; try lia.
  - replace (e - e') with 0 by lia. rewrite Z.pow_0_r. lia.
  - change (Pos.iter xO m d) with (shift_pos d m).
    rewrite shift_pos_correct.
    replace (e - e') with (Zpos d) by lia.
    rewrite Z.mul_comm. reflexivity.
Qed.

(** An integer of at most [prec] digits is represented exactly. *)
Lemma binary_round_integer s m :
  Zpos m < 2 ^ prec ->
  exists m' e', binary_round prec emax s m 0 = S754_finite s m' e'
                /\ emin <= e' /\ e' <= 0
                /\ Zpos m' = Zpos m * 2 ^ (- e').
Proof.
  intros Hm. unfold binary_round.
  pose proof (digits2_pos_lower m) as Hd.
  set (d := Zpos (digits2_pos m)) in *.
  assert (Hd' : d <= prec).
  { destruct (Z_le_gt_dec d prec) as [ | Hgt]; [assumption | exfalso].
    assert (2 ^ prec <= 2 ^ (d - 1)) by (apply Z.pow_le_mono_r; lia). lia. }
  assert (Hf : SpecFloat.fexp prec emax (d + 0) = d - prec).
  { unfold SpecFloat.fexp, SpecFloat.emin. subst d. lia. }
  rewrite Hf.
  pose proof (shl_align_value m 0 (d - prec) ltac:(lia)) as Hv.
  unfold shl_align in *.
  destruct (d - prec - 0) as [ | k | k] eqn:Ek; cbn [fst] in Hv.
  - rewrite binary_round_aux_canonical;
      try (unfold SpecFloat.emin; subst d; lia).
    exists m, 0. rewrite Z.pow_0_r. unfold SpecFloat.emin.
    split; [reflexivity | lia].
  - lia.
  - rewrite binary_round_aux_canonical.
    + exists (Pos.iter xO m k), (d - prec).
      split; [reflexivity | ]. repeat split.
      * unfold SpecFloat.emin. subst d. lia.
      * lia.
      * rewrite Hv. replace (0 - (d - prec)) with (- (d - prec)) by lia. reflexivity.
    + rewrite digits2_pos_shift. fold d. lia.
    + unfold SpecFloat.emin. subst d. lia.
    + lia.
Qed.

End Rounding_facts.

(** ** Numbers *)

Module JsNumberFacts.
Import JsNumber.

Lemma binary64_prec_pos : 0 < prec.
Proof. reflexivity. Qed.

Lemma binary64_prec_lt_emax : prec < emax.
Proof. reflexivity. Qed.

Lemma emin_nonpos : emin prec emax <= 0.
Proof. discriminate. Qed.

Lemma sign_finite s m e : sign (S754_finite s m e) = if s then Lt else Gt.
Proof. reflexivity. Qed.

Lemma sign_infinity s : sign (S754_infinity s) = if s then Lt else Gt.
Proof. reflexivity. Qed.

Lemma sign_zero s : sign (S754_zero s) = Eq.
Proof. reflexivity. Qed.

Lemma Ext_compare_refl a : Ext_compare a a = Eq.
Proof. destruct a; cbn; auto using Z.compare_refl. Qed.

Lemma Ext_compare_antisym a b : Ext_compare b a = CompOpp (Ext_compare a b).
Proof. destruct a, b; cbn; auto using Z.compare_antisym. Qed.

Lemma Ext_le_trans a b c : Ext_le a b -> Ext_le b c -> Ext_le a c.
Proof.
  unfold Ext_le. destruct a, b, c; cbn; try congruence.
  rewrite !Z.compare_le_iff. lia.
Qed.

Lemma two_power_pos k : 0 < 2 ^ k \/ k < 0.
Proof.
  destruct (Z_lt_le_dec k 0); [right; assumption | left].
  apply Z.pow_pos_nonneg; lia.
Qed.

(** *** Integers as Numbers *)

Lemma of_Z_zero : of_Z 0 = zero.
Proof. reflexivity. Qed.

Lemma of_Z_pos z : 0 < z ->
  (exists m e, of_Z z = S754_finite false m e /\ emin prec emax <= e)
  \/ of_Z z = Infinity.
Proof.
  intros Hz. destruct z as [ | p | p]; try lia.
  exact (binary_round_pos prec emax binary64_prec_pos false p 0 emin_nonpos).
Qed.

Lemma of_Z_truthy z : 0 < z -> truthy (of_Z z) = true.
Proof.
  intros Hz. destruct (of_Z_pos z Hz) as [(m & e & -> & _) | ->]; reflexivity.
Qed.

Lemma of_nat_or_zero n : or_else (of_nat n) zero = of_nat n.
Proof.
  unfold or_else, of_nat. destruct n as [ | n]; [reflexivity | ].
  rewrite of_Z_truthy by lia. reflexivity.
Qed.

(** Integers below [2 ^ 53] in magnitude are Numbers, exactly. *)
Lemma of_Z_exact z : Z.abs z < 2 ^ 53 ->
  wf (of_Z z) /\ is_nan (of_Z z) = false /\ value (of_Z z) = Real (Z_units z).
Proof.
  intros Hz. unfold Z_units.
  destruct z as [ | p | p].
  - repeat split.
  - destruct (binary_round_integer prec emax binary64_prec_pos binary64_prec_lt_emax false p Hz)
      as (m & e & E & He & He' & Hm).
    unfold of_Z, binary_normalize. rewrite E. cbn [wf is_nan value].
    repeat split; [assumption | ].
    unfold units, cond_Zopp. rewrite Hm, <- Z.mul_assoc, <- Z.pow_add_r by lia.
    do 3 f_equal. lia.
  - destruct (binary_round_integer prec emax binary64_prec_pos binary64_prec_lt_emax true p Hz)
      as (m & e & E & He & He' & Hm).
    unfold of_Z, binary_normalize. rewrite E. cbn [wf is_nan value].
    repeat split; [assumption | ].
    unfold units, cond_Zopp. rewrite Hm, <- Z.mul_assoc, <- Z.pow_add_r by lia.
    replace (- e + (e - emin prec emax)) with (- emin prec emax) by lia.
    rewrite <- Z.mul_opp_l. reflexivity.
Qed.

(** *** Division and subtraction *)

Lemma div_wf x y : wf (div x y).
Proof.
  destruct x as [sx | sx | | sx mx ex], y as [sy | sy | | sy my ey];
    try exact I.
  unfold div, SFdiv.
  destruct (SFdiv_core_binary prec emax (Zpos mx) ex (Zpos my) ey)
    as [[mz ez] lz].
  pose proof (binary_round_aux_shape prec emax (xorb sx sy) mz ez lz) as H.
  destruct (binary_round_aux prec emax (xorb sx sy) mz ez lz); try exact I.
  apply H.
Qed.

Lemma units_aligned s m e e' : emin prec emax <= e' -> e' <= e ->
  units s m e
  = cond_Zopp s (Zpos (fst (shl_align m e e'))) * 2 ^ (e' - emin prec emax).
Proof.
  intros H1 H2. rewrite shl_align_value by assumption.
  unfold units. replace (e - emin prec emax)
    with ((e - e') + (e' - emin prec emax)) by lia.
  rewrite Z.pow_add_r by lia.
  destruct s; cbn [cond_Zopp]; lia.
Qed.

Lemma sign_binary_normalize d e : emin prec emax <= e ->
  sign (binary_normalize prec emax d e false) = Z.compare d 0
  /\ wf (binary_normalize prec emax d e false)
  /\ is_nan (binary_normalize prec emax d e false) = false.
Proof.
  intros He. destruct d as [ | p | p]; cbn [binary_normalize].
  - repeat split.
  - destruct (binary_round_pos prec emax binary64_prec_pos false p e He) as [(m & e' & -> & H) | ->];
      repeat split; assumption.
  - destruct (binary_round_pos prec emax binary64_prec_pos true p e He) as [(m & e' & -> & H) | ->];
      repeat split; assumption.
Qed.

(** The sign of a difference is the comparison of the two values. *)
Lemma sub_sign x y :
  wf x -> wf y -> is_nan x = false -> is_nan y = false ->
  sign (sub x y) = Ext_compare (value x) (value y).
Proof.
  destruct x as [sx | sx | | sx mx ex], y as [sy | sy | | sy my ey];
    cbn [wf is_nan]; intros Hx Hy Nx Ny; try discriminate.
  - destruct sx, sy; reflexivity.
  - destruct sx, sy; reflexivity.
  - cbn [sub SFsub value Ext_compare]. rewrite sign_finite.
    unfold units. pose proof (two_power_pos (ey - emin prec emax)) as [H | H];
      [ | lia].
    destruct sy; cbn [cond_Zopp negb]; symmetry;
      [apply Z.compare_gt_iff | apply Z.compare_lt_iff]; lia.
  - destruct sx, sy; reflexivity.
  - destruct sx, sy; reflexivity.
  - destruct sx, sy; reflexivity.
  - cbn [sub SFsub value Ext_compare]. rewrite sign_finite.
    unfold units. pose proof (two_power_pos (ex - emin prec emax)) as [H | H];
      [ | lia].
    destruct sx; cbn [cond_Zopp]; symmetry;
      [apply Z.compare_lt_iff | apply Z.compare_gt_iff]; lia.
  - destruct sx, sy; reflexivity.
  - unfold sub, SFsub. cbv beta iota zeta.
    set (ez := Z.min ex ey).
    assert (Hez : emin prec emax <= ez) by (subst ez; lia).
    destruct (sign_binary_normalize
      (cond_Zopp sx (Zpos (fst (shl_align mx ex ez)))
       - cond_Zopp sy (Zpos (fst (shl_align my ey ez)))) ez Hez) as [-> _].
    cbn [value Ext_compare].
    rewrite (units_aligned sx mx ex ez), (units_aligned sy my ey ez)
      by (subst ez; lia).
    pose proof (two_power_pos (ez - emin prec emax)) as [H | H]; [ | lia].
    set (K := 2 ^ (ez - emin prec emax)) in *.
    set (a := cond_Zopp sx _). set (b := cond_Zopp sy _).
    destruct (Z.compare_spec (a - b) 0); symmetry;
      [apply Z.compare_eq_iff | apply Z.compare_lt_iff | apply Z.compare_gt_iff];
      nia.
Qed.

Lemma sub_wf x y : wf x -> wf y -> wf (sub x y).
Proof.
  destruct x as [sx | sx | | sx mx ex], y as [sy | sy | | sy my ey];
    cbn [wf]; intros Hx Hy; try exact I; try assumption;
    try (destruct sx, sy; exact I).
  unfold sub, SFsub. cbv beta iota zeta.
  apply sign_binary_normalize. lia.
Qed.

End JsNumberFacts.

(** ** Sorting *)

Section Sort_facts.
Context {A : Type}.
Variable comparefn : A -> A -> Number.

Local Abbreviation sgn a b := (JsNumber.sign (comparefn a b)).

Lemma sort_insert_perm x l : Permutation (sort_insert comparefn x l) (x :: l).
Proof.
  induction l as [ | y l IH]; cbn [sort_insert]; [reflexivity | ].
  destruct (JsNumber.sign (comparefn x y)); try reflexivity.
  rewrite IH. apply perm_swap.
Qed.

Lemma Array_sort_perm l : Permutation (Array_sort comparefn l) l.
Proof.
  induction l as [ | x l IH]; cbn; [reflexivity | ].
  fold (Array_sort comparefn l). rewrite sort_insert_perm, IH. reflexivity.
Qed.

Lemma Array_sort_In l x : In x (Array_sort comparefn l) <-> In x l.
Proof.
  split; apply Permutation_in;
    [ | symmetry]; apply Array_sort_perm.
Qed.

Hypothesis consistent : Consistent comparefn.

Lemma sgn_refl a : sgn a a = Eq.
Proof.
  pose proof (consistent_antisym consistent a a) as H.
  destruct (JsNumber.sign (comparefn a a)); cbn in H; congruence.
Qed.

Lemma sgn_Gt_Lt a b : sgn a b = Gt -> sgn b a = Lt.
Proof.
  intros H. rewrite (consistent_antisym consistent a b), H. reflexivity.
Qed.

Lemma sgn_Lt_Gt a b : sgn a b = Lt -> sgn b a = Gt.
Proof.
  intros H. rewrite (consistent_antisym consistent a b), H. reflexivity.
Qed.

Lemma sgn_Eq_sym a b : sgn a b <> Eq -> sgn b a <> Eq.
Proof.
  intros H E. apply H.
  rewrite (consistent_antisym consistent b a), E. reflexivity.
Qed.

Lemma sort_insert_sorted x l :
  StronglySorted (fun a b => sgn a b <> Gt) l ->
  StronglySorted (fun a b => sgn a b <> Gt) (sort_insert comparefn x l).
Proof.
  induction 1 as [ | y l Hl IH Hy]; cbn [sort_insert].
  - constructor; constructor.
  - destruct (JsNumber.sign (comparefn x y)) eqn:E.
    + constructor; [constructor; assumption | ].
      constructor; [congruence | ].
      eapply Forall_impl; [ | exact Hy].
      intros z Hz. apply (consistent_trans consistent x y z); congruence.
    + constructor; [constructor; assumption | ].
      constructor; [congruence | ].
      eapply Forall_impl; [ | exact Hy].
      intros z Hz. apply (consistent_trans consistent x y z); congruence.
    + constructor; [exact IH | ].
      eapply Permutation_Forall; [symmetry; apply sort_insert_perm | ].
      constructor; [ | exact Hy].
      rewrite (sgn_Gt_Lt x y E). discriminate.
Qed.

(** The result of [sort] is ordered: no element comes after a later one. *)
Lemma Array_sort_sorted l :
  StronglySorted (fun a b => sgn a b <> Gt) (Array_sort comparefn l).
Proof.
  induction l as [ | x l IH]; cbn; [constructor | ].
  apply sort_insert_sorted, IH.
Qed.

(** A list without ties has no repeated element, and any two different
    elements compare different from equal, wherever they stand. *)
Lemma NoTies_NoDup l : NoTies comparefn l -> NoDup l.
Proof.
  induction 1 as [ | a l Ha Hl IH]; constructor; [ | exact IH].
  intros Hin. rewrite Forall_forall in Ha.
  apply (Ha a Hin), sgn_refl.
Qed.

Lemma NoTies_In l : NoTies comparefn l ->
  forall a b, In a l -> In b l -> a <> b -> sgn a b <> Eq.
Proof.
  induction 1 as [ | x l Hx Hl IH]; intros a b Ha Hb Hab; [destruct Ha | ].
  rewrite Forall_forall in Hx.
  destruct Ha as [-> | Ha], Hb as [-> | Hb].
  - congruence.
  - apply Hx, Hb.
  - apply sgn_Eq_sym, Hx, Ha.
  - apply IH; assumption.
Qed.

Lemma sorted_strict l :
  NoDup l ->
  (forall a b, In a l -> In b l -> a <> b -> sgn a b <> Eq) ->
  StronglySorted (fun a b => sgn a b <> Gt) l ->
  StronglySorted (fun a b => sgn a b = Lt) l.
Proof.
  intros Hnd Hties Hs. induction Hs as [ | x l Hl IH Hx]; constructor.
  - apply IH; [inversion Hnd; assumption | ].
    intros a b Ha Hb. apply Hties; right; assumption.
  - rewrite Forall_forall in *. intros y Hy.
    assert (x <> y) by (inversion Hnd; subst; congruence).
    pose proof (Hties x y (or_introl eq_refl) (or_intror Hy) H) as H1.
    pose proof (Hx y Hy) as H2.
    destruct (JsNumber.sign (comparefn x y)); congruence.
Qed.

(** Two strictly ordered lists with the same elements are the same list. *)
Lemma strict_sorted_unique l1 : forall l2,
  Permutation l1 l2 ->
  StronglySorted (fun a b => sgn a b = Lt) l1 ->
  StronglySorted (fun a b => sgn a b = Lt) l2 ->
  l1 = l2.
Proof.
  induction l1 as [ | a l1 IH]; intros l2 Hp H1 H2.
  - apply Permutation_nil in Hp. congruence.
  - destruct l2 as [ | b l2];
      [apply Permutation_sym, Permutation_nil in Hp; discriminate | ].
    apply StronglySorted_inv in H1 as [H1 Ha].
    apply StronglySorted_inv in H2 as [H2 Hb].
    rewrite Forall_forall in Ha, Hb.
    assert (E : a = b).
    { assert (Ia : In a (b :: l2))
        by (apply (Permutation_in _ Hp); left; reflexivity).
      assert (Ib : In b (a :: l1))
        by (apply (Permutation_in _ (Permutation_sym Hp)); left; reflexivity).
      destruct Ia as [ | Ia]; [congruence | ].
      destruct Ib as [ | Ib]; [congruence | ].
      pose proof (sgn_Lt_Gt _ _ (Ha b Ib)) as G.
      rewrite (Hb a Ia) in G. discriminate. }
    subst b. f_equal. apply IH; try assumption.
    eapply Permutation_cons_inv; exact Hp.
Qed.

(** Elements that compare equal form a class. *)
Lemma tied_trans z x y :
  tied comparefn z x = true -> tied comparefn z y = true -> sgn x y = Eq.
Proof.
  unfold tied. intros Hx Hy.
  destruct (JsNumber.sign (comparefn z x)) eqn:Ex; try discriminate.
  destruct (JsNumber.sign (comparefn z y)) eqn:Ey; try discriminate.
  assert (Exz : sgn x z = Eq)
    by (rewrite (consistent_antisym consistent z x), Ex; reflexivity).
  assert (Eyz : sgn y z = Eq)
    by (rewrite (consistent_antisym consistent z y), Ey; reflexivity).
  assert (H1 : sgn x y <> Gt)
    by (apply (consistent_trans consistent x z y); congruence).
  assert (H2 : sgn y x <> Gt)
    by (apply (consistent_trans consistent y z x); congruence).
  destruct (JsNumber.sign (comparefn x y)) eqn:E; try congruence.
  apply sgn_Lt_Gt in E. congruence.
Qed.

Lemma sort_insert_stable z x l :
  filter (tied comparefn z) (sort_insert comparefn x l)
  = filter (tied comparefn z) (x :: l).
Proof.
  induction l as [ | y l IH]; cbn [sort_insert]; [reflexivity | ].
  destruct (JsNumber.sign (comparefn x y)) eqn:E; try reflexivity.
  cbn [filter] in *. rewrite IH.
  destruct (tied comparefn z x) eqn:Tx, (tied comparefn z y) eqn:Ty;
    try reflexivity.
  rewrite (tied_trans z x y Tx Ty) in E. discriminate.
Qed.

(** [sort] is stable: the elements of one class keep their order. *)
Lemma Array_sort_stable z l :
  filter (tied comparefn z) (Array_sort comparefn l)
  = filter (tied comparefn z) l.
Proof.
  induction l as [ | x l IH]; [reflexivity | ].
  cbn [Array_sort fold_right]. fold (Array_sort comparefn l).
  rewrite sort_insert_stable. cbn [filter]. rewrite IH. reflexivity.
Qed.

(** The three properties fix the result: a list that is ordered and keeps
    every class in the order of [l] is the result of [sort] on [l],
    whatever algorithm produced it. *)
Lemma stable_sorted_unique l1 : forall l2,
  StronglySorted (fun a b => sgn a b <> Gt) l1 ->
  StronglySorted (fun a b => sgn a b <> Gt) l2 ->
  (forall z, filter (tied comparefn z) l1 = filter (tied comparefn z) l2) ->
  l1 = l2.
Proof.
  assert (Trefl : forall a, tied comparefn a a = true)
    by (intros a; unfold tied; rewrite sgn_refl; reflexivity).
  assert (Hhead : forall a l b l',
            StronglySorted (fun a b => sgn a b <> Gt) (b :: l') ->
            filter (tied comparefn a) (a :: l)
            = filter (tied comparefn a) (b :: l') ->
            a = b \/ sgn b a = Lt).
  { intros a l b l' Hs Hf. cbn [filter] in Hf. rewrite Trefl in Hf.
    destruct (tied comparefn a b) eqn:T; [left; congruence | right].
    assert (Hin : In a l').
    { assert (H : In a (filter (tied comparefn a) l'))
        by (rewrite <- Hf; left; reflexivity).
      apply filter_In in H. apply H. }
    apply StronglySorted_inv in Hs as [_ Hb]. rewrite Forall_forall in Hb.
    pose proof (Hb a Hin) as Hle. unfold tied in T.
    rewrite (consistent_antisym consistent b a) in T.
    destruct (JsNumber.sign (comparefn b a)); cbn in T; congruence. }
  induction l1 as [ | a l1 IH]; intros l2 H1 H2 Hf.
  - destruct l2 as [ | b l2]; [reflexivity | ].
    specialize (Hf b). cbn [filter] in Hf. rewrite Trefl in Hf. discriminate.
  - destruct l2 as [ | b l2].
    { specialize (Hf a). cbn [filter] in Hf. rewrite Trefl in Hf.
      discriminate. }
    assert (E : a = b).
    { destruct (Hhead a l1 b l2 H2 (Hf a)) as [ | Hba]; [assumption | ].
      destruct (Hhead b l2 a l1 H1 (eq_sym (Hf b))) as [ | Hab];
        [congruence | ].
      apply sgn_Lt_Gt in Hba. congruence. }
    subst b. f_equal.
    apply StronglySorted_inv in H1 as [H1 _].
    apply StronglySorted_inv in H2 as [H2 _].
    apply IH; try assumption.
    intros z. specialize (Hf z). cbn [filter] in Hf.
    destruct (tied comparefn z a); congruence.
Qed.

End Sort_facts.

Lemma StronglySorted_snoc (A : Type) (R : A -> A -> Prop) l x :
  StronglySorted R l -> Forall (fun y => R y x) l ->
  StronglySorted R (l ++ [x]).
Proof.
  induction 1 as [ | y l Hl IH Hy]; intros Hx; cbn.
  - constructor; constructor.
  - inversion Hx; subst. constructor; [apply IH; assumption | ].
    apply Forall_app; split; [assumption | constructor; [assumption | constructor]].
Qed.

Lemma StronglySorted_rev (A : Type) (R : A -> A -> Prop) l :
  StronglySorted R l -> StronglySorted (fun a b => R b a) (rev l).
Proof.
  induction 1 as [ | x l Hl IH Hx]; cbn; [constructor | ].
  apply StronglySorted_snoc; [exact IH | ].
  apply Forall_rev. exact Hx.
Qed.

Lemma StronglySorted_impl (A : Type) (R S : A -> A -> Prop) l :
  (forall a b, In a l -> In b l -> R a b -> S a b) ->
  StronglySorted R l -> StronglySorted S l.
Proof.
  intros H Hs. induction Hs as [ | x l Hl IH Hx]; constructor.
  - apply IH. intros a b Ha Hb. apply H; right; assumption.
  - rewrite Forall_forall in *. intros y Hy.
    apply H; [left; reflexivity | right; assumption | apply Hx, Hy].
Qed.

Lemma Consistent_swap (A : Type) (comparefn : A -> A -> Number) :
  Consistent comparefn -> Consistent (fun a b => comparefn b a).
Proof.
  intros [Ha Ht]; split.
  - intros a b. apply Ha.
  - intros a b c H1 H2. apply (Ht c b a); assumption.
Qed.

(** Sorting with the swapped comparator reverses the result, provided
    nothing ties. *)
Lemma Array_sort_swap (A : Type) (comparefn : A -> A -> Number) l :
  Consistent comparefn -> NoTies comparefn l ->
  Array_sort (fun a b => comparefn b a) l = rev (Array_sort comparefn l).
Proof.
  intros Hc Hn.
  pose proof (Consistent_swap A comparefn Hc) as Hc'.
  pose proof (NoTies_NoDup comparefn Hc l Hn) as Hnd.
  pose proof (NoTies_In comparefn Hc l Hn) as Hin.
  apply (strict_sorted_unique (fun a b => comparefn b a) Hc').
  - rewrite Array_sort_perm, <- Permutation_rev, Array_sort_perm. reflexivity.
  - apply (sorted_strict (fun a b => comparefn b a) _).
    + eapply Permutation_NoDup; [symmetry; apply Array_sort_perm | exact Hnd].
    + intros a b Ha Hb Hab. rewrite Array_sort_In in Ha, Hb.
      apply Hin; auto.
    + apply Array_sort_sorted, Hc'.
  - apply StronglySorted_rev with (R := fun a b => JsNumber.sign (comparefn a b) = Lt).
    apply (sorted_strict comparefn).
    + eapply Permutation_NoDup; [symmetry; apply Array_sort_perm | exact Hnd].
    + intros a b Ha Hb Hab. rewrite Array_sort_In in Ha, Hb.
      apply Hin; auto.
    + apply Array_sort_sorted, Hc.
Qed.

(** ** Strings *)

Lemma prefix_spec sub : forall s,
  prefix sub s = true <-> exists after, s = (sub ++ after)%string.
Proof.
  induction sub as [ | a sub IH]; intros s.
  - destruct s; (split; [intros _; eexists; reflexivity | reflexivity]).
  - destruct s as [ | b s]; cbn [prefix].
    + split; [discriminate | intros [after H]; discriminate].
    + destruct (ascii_dec a b) as [-> | Hab].
      * rewrite IH. split; intros [after H]; exists after; cbn in *; congruence.
      * split; [discriminate | intros [after H]; cbn in H; congruence].
Qed.

(** [includes] decides occurrence as a contiguous run. *)
Lemma includes_spec s : forall sub, includes s sub = true <-> occurs_in sub s.
Proof.
  unfold occurs_in.
  induction s as [ | c s IH]; intros sub; cbn [includes].
  - destruct (prefix sub "") eqn:E.
    + apply prefix_spec in E as [after E].
      split; [intros _; exists ""%string, after; exact E | reflexivity].
    + split; [discriminate | intros (before & after & H)].
      destruct before; [ | discriminate].
      assert (prefix sub "" = true) by (apply prefix_spec; exists after; exact H).
      congruence.
  - destruct (prefix sub (String c s)) eqn:E.
    + apply prefix_spec in E as [after E].
      split; [intros _; exists ""%string, after; exact E | reflexivity].
    + rewrite IH. split; intros (before & after & H).
      * exists (String c before), after. cbn. congruence.
      * destruct before as [ | c' before].
        -- assert (prefix sub (String c s) = true)
             by (apply prefix_spec; exists after; exact H).
           congruence.
        -- exists before, after. cbn in H. congruence.
Qed.

(** ** The popularity of one post *)

Module PopularityFacts.
Import JsNumber JsNumberFacts.

Lemma popularityOf_spec users post :
  popularityOf users post
  = {| pp_id := id post;
       popularity := clamp (rawScore (likeCount post) (List.length users)) |}.
Proof.
  unfold popularityOf, clamp, rawScore, likeCount.
  destruct (likes post) as [ls | ];
    [rewrite of_nat_or_zero | change (of_nat 0) with zero];
    match goal with |- context [ge ?q zero] => destruct (ge q zero) end;
    reflexivity.
Qed.

Lemma clamp_wf q : wf q -> wf (clamp q).
Proof. unfold clamp. destruct (ge q zero); [auto | intros _; exact I]. Qed.

Lemma clamp_not_nan q : is_nan (clamp q) = false.
Proof. unfold clamp. destruct q as [s | [ | ] | | [ | ] m e]; reflexivity. Qed.

(** A clamped score is never below zero. *)
Lemma clamp_nonneg q : Ext_le (Real 0) (value (clamp q)).
Proof.
  unfold Ext_le.
  destruct q as [s | [ | ] | | [ | ] m e]; try discriminate.
  change (clamp (S754_finite false m e)) with (S754_finite false m e).
  cbn [value Ext_compare]. unfold units, cond_Zopp.
  assert (0 <= 2 ^ (e - emin prec emax)) by (apply Z.pow_nonneg; lia).
  intros C. apply Z.compare_gt_iff in C. lia.
Qed.

Lemma rawScore_wf n k : wf (rawScore n k).
Proof. apply div_wf. Qed.

(** The denominators of the two degenerate user counts. *)
Lemma denominator_one_user : sub (of_nat 1) one = zero.
Proof. vm_compute. reflexivity. Qed.

Lemma denominator_no_user :
  sub (of_nat 0) one = S754_finite true 4503599627370496 (-52).
Proof. vm_compute. reflexivity. Qed.

Lemma div_positive_by_zero n : (0 < n)%nat -> div (of_nat n) zero = Infinity.
Proof.
  intros Hn. unfold of_nat.
  destruct (of_Z_pos (Z.of_nat n) ltac:(lia)) as [(m & e & -> & _) | ->];
    reflexivity.
Qed.

(** Dividing a positive Number by [-1] gives a negative one: the quotient
    is neither lost to zero nor NaN. *)
Lemma div_finite_by_minus_one mx ex : emin prec emax <= ex ->
  (exists m e, div (S754_finite false mx ex)
                 (S754_finite true 4503599627370496 (-52))
               = S754_finite true m e)
  \/ div (S754_finite false mx ex) (S754_finite true 4503599627370496 (-52))
     = S754_infinity true.
Proof.
  intros He. unfold div, SFdiv, SFdiv_core_binary. cbv zeta.
  change (Zdigits2 (Zpos 4503599627370496)) with 53.
  change (Zdigits2 (Zpos mx)) with (Zpos (digits2_pos mx)).
  pose proof (digits2_pos_lower mx) as Hd.
  set (d := Zpos (digits2_pos mx)) in *.
  set (e' := Z.min (SpecFloat.fexp prec emax (d + ex - (53 + -52))) (ex - -52)).
  assert (He' : emin prec emax <= e' <= d + ex - 1).
  { subst e' d. unfold SpecFloat.fexp, SpecFloat.emin, prec, emax in *. lia. }
  set (s := ex - -52 - e').
  assert (Hs : 0 <= s) by (subst s e'; lia).
  set (m' := match s with Zpos _ => Z.shiftl (Zpos mx) s | 0 => Zpos mx
                        | Zneg _ => 0 end).
  assert (Hm' : m' = Zpos mx * 2 ^ s).
  { subst m'. destruct s as [ | p | p] eqn:Es.
    - rewrite Z.pow_0_r. lia.
    - apply Z.shiftl_mul_pow2. lia.
    - lia. }
  assert (Hq : 1 <= m' / 4503599627370496).
  { apply Z.div_le_lower_bound; [reflexivity | ].
    rewrite Hm'. change (4503599627370496 * 1) with (2 ^ 52).
    transitivity (2 ^ (d - 1) * 2 ^ s).
    - rewrite <- Z.pow_add_r by lia. apply Z.pow_le_mono_r; subst s; lia.
    - apply Z.mul_le_mono_nonneg_r; [apply Z.pow_nonneg; lia | exact Hd]. }
  unfold Z.div in Hq.
  destruct (Z.div_eucl m' 4503599627370496) as [q r].
  destruct q as [ | q | q]; try lia.
  destruct (binary_round_aux_pos prec emax binary64_prec_pos (xorb false true) q e'
              (new_location 4503599627370496 r) (proj1 He'))
    as [(m & e & -> & _) | ->]; [left; eauto | right; reflexivity].
Qed.

Lemma div_positive_by_minus_one n : (0 < n)%nat ->
  ge (div (of_nat n) (S754_finite true 4503599627370496 (-52))) zero = false.
Proof.
  intros Hn. unfold of_nat.
  destruct (of_Z_pos (Z.of_nat n) ltac:(lia)) as [(m & e & -> & He) | ->].
  - destruct (div_finite_by_minus_one m e He) as [(m' & e' & ->) | ->];
      reflexivity.
  - reflexivity.
Qed.

(** The four degenerate cases of the raw score. *)
Lemma rawScore_one_user_no_like : rawScore 0 1 = NaN.
Proof. vm_compute. reflexivity. Qed.

Lemma rawScore_one_user_likes n : (0 < n)%nat -> rawScore n 1 = Infinity.
Proof.
  intros Hn. unfold rawScore. rewrite denominator_one_user.
  apply div_positive_by_zero, Hn.
Qed.

Lemma rawScore_no_user_likes n : (0 < n)%nat -> ge (rawScore n 0) zero = false.
Proof.
  intros Hn. unfold rawScore. rewrite denominator_no_user.
  apply div_positive_by_minus_one, Hn.
Qed.

Lemma rawScore_no_user_no_like : rawScore 0 0 = neg_zero.
Proof. vm_compute. reflexivity. Qed.

(** *** Scores as sort keys *)

Lemma computePopularity_usable posts users :
  Forall (fun p => usable (popularity p)) (computePopularity posts users).
Proof.
  unfold computePopularity. apply Forall_map, Forall_forall. intros post _.
  rewrite popularityOf_spec. cbn [popularity]. split.
  - apply clamp_wf, rawScore_wf.
  - apply clamp_not_nan.
Qed.

Lemma or_else_zero_usable x : usable x -> usable (or_else x zero).
Proof.
  unfold or_else. destruct (truthy x); [auto | intros _; split; reflexivity].
Qed.

End PopularityFacts.

(** ** The comparators of the controller *)

Module ComparatorFacts.
Import JsNumber JsNumberFacts PopularityFacts.

(** A comparator whose sign compares a key is consistent. *)
Lemma Consistent_of_key (A : Type) (key : A -> Ext)
    (comparefn : A -> A -> Number) :
  (forall a b, sign (comparefn a b) = Ext_compare (key a) (key b)) ->
  Consistent comparefn.
Proof.
  intros H; split.
  - intros a b. rewrite !H. apply Ext_compare_antisym.
  - intros a b c. rewrite !H. apply Ext_le_trans.
Qed.

Lemma popularityLookup_usable scores a :
  Forall (fun p => usable (popularity p)) scores ->
  usable (popularityLookup scores a).
Proof.
  intros H. unfold popularityLookup.
  destruct (find (fun p => pp_id p =? id a) scores) as [p | ] eqn:E.
  - apply or_else_zero_usable. rewrite Forall_forall in H.
    apply H. eapply find_some; exact E.
  - split; reflexivity.
Qed.

(** A post whose id has no entry is looked up as 0. *)
Lemma popularityLookup_missing scores a :
  ~ In (id a) (map pp_id scores) -> popularityLookup scores a = zero.
Proof.
  intros H. unfold popularityLookup.
  destruct (find (fun p => pp_id p =? id a) scores) as [p | ] eqn:E;
    [ | reflexivity].
  exfalso. apply H. apply find_some in E as [Hin Heq].
  apply Z.eqb_eq in Heq. rewrite <- Heq. apply in_map, Hin.
Qed.

(** A post that has an entry is looked up as the score of the first entry
    with its id, an entry of 0 reading as 0. *)
Lemma popularityLookup_found scores a p :
  find (fun p => pp_id p =? id a) scores = Some p ->
  value (popularityLookup scores a) = value (popularity p).
Proof.
  intros E. unfold popularityLookup. rewrite E. unfold or_else.
  destruct (popularity p); reflexivity.
Qed.

Lemma byPopularity_sign_asc scores a b :
  Forall (fun p => usable (popularity p)) scores ->
  sign (byPopularity "popularidad-asc" scores a b)
  = Ext_compare (value (popularityLookup scores a))
                (value (popularityLookup scores b)).
Proof.
  intros H. unfold byPopularity. cbn [String.eqb Ascii.eqb Bool.eqb].
  destruct (popularityLookup_usable scores a H),
           (popularityLookup_usable scores b H).
  apply sub_sign; assumption.
Qed.

Lemma byPopularity_sign_desc scores a b :
  Forall (fun p => usable (popularity p)) scores ->
  sign (byPopularity "popularidad-desc" scores a b)
  = Ext_compare (value (popularityLookup scores b))
                (value (popularityLookup scores a)).
Proof.
  intros H. unfold byPopularity. cbn [String.eqb Ascii.eqb Bool.eqb].
  destruct (popularityLookup_usable scores a H),
           (popularityLookup_usable scores b H).
  apply sub_sign; assumption.
Qed.

(** The descending comparator is the ascending one with its arguments
    swapped. *)
Lemma byPopularity_desc_swap scores a b :
  byPopularity "popularidad-desc" scores a b
  = byPopularity "popularidad-asc" scores b a.
Proof. reflexivity. Qed.

Lemma byPopularity_asc_consistent scores :
  Forall (fun p => usable (popularity p)) scores ->
  Consistent (byPopularity "popularidad-asc" scores).
Proof.
  intros H.
  apply (Consistent_of_key Post (fun a => value (popularityLookup scores a))).
  intros a b. apply byPopularity_sign_asc, H.
Qed.

Lemma byPopularity_desc_consistent scores :
  Forall (fun p => usable (popularity p)) scores ->
  Consistent (byPopularity "popularidad-desc" scores).
Proof.
  intros H; split.
  - intros a b. rewrite !byPopularity_sign_desc by exact H.
    apply Ext_compare_antisym.
  - intros a b c. rewrite !byPopularity_sign_desc by exact H.
    intros H1 H2. exact (Ext_le_trans _ _ _ H2 H1).
Qed.

End ComparatorFacts.

Module DateFacts.
Import JsNumber JsNumberFacts.

Lemma timeValue_small d : Z.abs (timeValue d) < 2 ^ 53.
Proof.
  pose proof (timeValue_in_range d) as H. apply Z.leb_le in H.
  unfold Date_max in H. change (2 ^ 53) with 9007199254740992. lia.
Qed.

(** Time values are Numbers exactly, so the sign of a difference of two
    [getTime] results is the comparison of the time values. *)
Lemma byDateDesc_sign a b :
  sign (byDateDesc a b) = Z.compare (timeValue (date b)) (timeValue (date a)).
Proof.
  unfold byDateDesc, getTime.
  destruct (of_Z_exact _ (timeValue_small (date a))) as (Wa & Na & Va).
  destruct (of_Z_exact _ (timeValue_small (date b))) as (Wb & Nb & Vb).
  rewrite sub_sign by assumption. rewrite Va, Vb. cbn [Ext_compare].
  unfold Z_units.
  assert (0 < 2 ^ (- emin prec emax))
    by (apply Z.pow_pos_nonneg; [lia | discriminate]).
  set (K := 2 ^ (- emin prec emax)) in *.
  destruct (Z.compare_spec (timeValue (date b)) (timeValue (date a)));
    [apply Z.compare_eq_iff | apply Z.compare_lt_iff | apply Z.compare_gt_iff];
    nia.
Qed.

Lemma byDateDesc_consistent : Consistent byDateDesc.
Proof.
  split.
  - intros a b. rewrite !byDateDesc_sign. apply Z.compare_antisym.
  - intros a b c. rewrite !byDateDesc_sign, !Z.compare_le_iff. lia.
Qed.

End DateFacts.

(** ** The controller *)

Section Controller_facts.
Context {strings : JsStrings}.

Lemma searchFilter_none posts : searchFilter None posts = posts.
Proof. reflexivity. Qed.

Lemma searchFilter_empty posts : searchFilter (Some ""%string) posts = posts.
Proof. reflexivity. Qed.

Lemma searchFilter_some q posts : q <> ""%string ->
  searchFilter (Some q) posts = filter (matchesSearch q) posts.
Proof. destruct q; [congruence | reflexivity]. Qed.

(** The filter keeps a sub-list of the snapshot. *)
Lemma searchFilter_incl q posts p : In p (searchFilter q posts) -> In p posts.
Proof.
  unfold searchFilter. destruct (truthy_string q); [ | auto].
  destruct q as [q | ]; [ | auto]. intros H. apply filter_In in H. apply H.
Qed.

Lemma readAll_nombre_asc q w :
  readAll (Some "nombre-asc"%string) q w
  = (Array_sort byTitleAsc (searchFilter q (stored_posts w)),
     called PostRepository_readAll w).
Proof. reflexivity. Qed.

Lemma readAll_nombre_desc q w :
  readAll (Some "nombre-desc"%string) q w
  = (Array_sort byTitleDesc (searchFilter q (stored_posts w)),
     called PostRepository_readAll w).
Proof. reflexivity. Qed.

Lemma readAll_popularidad_asc q w :
  readAll (Some "popularidad-asc"%string) q w
  = (Array_sort
       (byPopularity "popularidad-asc"
          (computePopularity (stored_posts w) (stored_users w)))
       (searchFilter q (stored_posts w)),
     called UserRepository_readAll
       (called PostRepository_readAll (called PostRepository_readAll w))).
Proof. reflexivity. Qed.

Lemma readAll_popularidad_desc q w :
  readAll (Some "popularidad-desc"%string) q w
  = (Array_sort
       (byPopularity "popularidad-desc"
          (computePopularity (stored_posts w) (stored_users w)))
       (searchFilter q (stored_posts w)),
     called UserRepository_readAll
       (called PostRepository_readAll (called PostRepository_readAll w))).
Proof. reflexivity. Qed.

Lemma readAll_default order q w :
  isNameKey order = false -> isPopularityKey order = false ->
  readAll order q w
  = (Array_sort byDateDesc (searchFilter q (stored_posts w)),
     called PostRepository_readAll w).
Proof.
  destruct order as [o | ]; [ | reflexivity].
  unfold isNameKey, isPopularityKey, readAll, bind, ReadAllPosts_execute,
    postRepository_readAll.
  intros H1 H2. apply orb_false_iff in H1 as [-> ->]. rewrite H2.
  reflexivity.
Qed.

(** Whatever the key, the answer is the filtered snapshot, sorted by some
    comparator. *)
Lemma readAll_sorts order q w :
  exists comparefn : Post -> Post -> Number,
    listPosts order q w
    = Array_sort comparefn (searchFilter q (stored_posts w)).
Proof.
  unfold listPosts.
  destruct (isNameKey order) eqn:E1; [ | destruct (isPopularityKey order) eqn:E2].
  - destruct order as [o | ]; [ | discriminate]. cbn in E1.
    apply orb_true_iff in E1 as [E | E]; apply String.eqb_eq in E; subst o;
      eexists; reflexivity.
  - destruct order as [o | ]; [ | discriminate]. cbn in E2.
    apply orb_true_iff in E2 as [E | E]; apply String.eqb_eq in E; subst o;
      eexists; reflexivity.
  - rewrite readAll_default by assumption. eexists; reflexivity.
Qed.

Lemma listPosts_perm order q w :
  Permutation (listPosts order q w) (searchFilter q (stored_posts w)).
Proof.
  destruct (readAll_sorts order q w) as [comparefn ->].
  apply Array_sort_perm.
Qed.

(** The world after a request: the stores as they were, and the fetches
    appended to the log. *)
Lemma readAll_world order q w :
  snd (readAll order q w)
  = {| stored_posts := stored_posts w;
       stored_users := stored_users w;
       calls := calls w ++
                (if isPopularityKey order
                 then [PostRepository_readAll; PostRepository_readAll;
                       UserRepository_readAll]
                 else [PostRepository_readAll]) |}.
Proof.
  destruct (isNameKey order) eqn:E1; [ | destruct (isPopularityKey order) eqn:E2].
  - destruct order as [o | ]; [ | discriminate]. cbn in E1.
    apply orb_true_iff in E1 as [E | E]; apply String.eqb_eq in E; subst o;
      reflexivity.
  - destruct order as [o | ]; [ | discriminate]. cbn in E2.
    apply orb_true_iff in E2 as [E | E]; apply String.eqb_eq in E; subst o;
      cbn; unfold called; cbn; rewrite <- !app_assoc; reflexivity.
  - rewrite readAll_default by assumption. reflexivity.
Qed.

End Controller_facts.

(** ** The unit tests and the specification's scenario, run on the model *)

Module Tests.
Import JsNumber Sample.

(** 0.5 as a binary64 Number: [2 ^ 52 * 2 ^ (-53)]. *)
Example test_popularity :
  computePopularity mockPosts mockUsers
  = [ {| pp_id := 1; popularity := one |};
      {| pp_id := 2;
         popularity := S754_finite false 4503599627370496 (-53) |} ].
Proof. vm_compute. reflexivity. Qed.

Example test_readAll_called_once :
  calls (snd (PostsPopularity_execute
                {| stored_posts := mockPosts; stored_users := mockUsers;
                   calls := [] |}))
  = [PostRepository_readAll; UserRepository_readAll].
Proof. reflexivity. Qed.

Example test_posts_without_likes :
  computePopularity mockPostsWithoutLikes mockTwoUsers
  = [ {| pp_id := 1; popularity := zero |} ].
Proof. vm_compute. reflexivity. Qed.

Example scenario_three_users :
  map popularity (computePopularity posts users)
  = [one; S754_finite false 4503599627370496 (-53); zero].
Proof. vm_compute. reflexivity. Qed.

Example scenario_one_user :
  map popularity (computePopularity posts [user 1 "Ana" "ana@example.com"])
  = [Infinity; Infinity; zero].
Proof. vm_compute. reflexivity. Qed.

Example listing_by_name :
  map title (listPosts (Some "nombre-asc"%string) None world)
  = ["Banana"; "Cherry"; "apple fruit"]%string.
Proof. vm_compute. reflexivity. Qed.

Example listing_by_popularity :
  map id (listPosts (Some "popularidad-desc"%string) None world) = [1; 2; 3].
Proof. vm_compute. reflexivity. Qed.

Example listing_by_date :
  map id (listPosts None None world) = [1; 3; 2].
Proof. vm_compute. reflexivity. Qed.

Example listing_search :
  map id (listPosts None (Some "FRUIT"%string) world) = [1; 2].
Proof. vm_compute. reflexivity. Qed.

End Tests.

(** ** More facts for the listing *)

Section Listing_facts.
Context {strings : JsStrings}.

Lemma matchesSearch_spec q p :
  matchesSearch q p = true
  <-> occurs_in (toLowerCase q) (toLowerCase (title p))
      \/ (exists c, content p = Some c
                    /\ occurs_in (toLowerCase q) (toLowerCase c)).
Proof.
  unfold matchesSearch. rewrite orb_true_iff, includes_spec.
  destruct (content p) as [c | ].
  - rewrite includes_spec. split; (intros [H | H]; [left; exact H | right]).
    + exists c. split; [reflexivity | exact H].
    + destruct H as (c' & E & H). congruence.
  - split; (intros [H | H]; [left; exact H | ]).
    + discriminate.
    + destruct H as (c' & E & _). discriminate.
Qed.

Lemma byTitleAsc_consistent :
  Consistent localeCompare -> Consistent byTitleAsc.
Proof.
  intros [Ha Ht]; split; unfold byTitleAsc.
  - intros a b. apply Ha.
  - intros a b c. apply Ht.
Qed.

End Listing_facts.

(** Each post of a snapshot with distinct ids finds its own entry. *)
Lemma find_popularityOf users posts p :
  NoDup (map id posts) -> In p posts ->
  find (fun e => pp_id e =? id p) (computePopularity posts users)
  = Some (popularityOf users p).
Proof.
  unfold computePopularity.
  induction posts as [ | a posts IH]; intros Hnd Hin; [destruct Hin | ].
  cbn [map find]. inversion Hnd as [ | x l Hna Hnd']; subst.
  assert (Ea : pp_id (popularityOf users a) = id a)
    by (rewrite PopularityFacts.popularityOf_spec; reflexivity).
  rewrite Ea. destruct (id a =? id p) eqn:E.
  - destruct Hin as [-> | Hin]; [reflexivity | ].
    exfalso. apply Hna. apply Z.eqb_eq in E. rewrite E. apply in_map, Hin.
  - destruct Hin as [-> | Hin]; [rewrite Z.eqb_refl in E; discriminate | ].
    apply IH; assumption.
Qed.

(** ** The ASCII string runtime is a consistent collation *)

Lemma codeUnitCompare_sign s t :
  JsNumber.sign (codeUnitCompare s t) = String.compare s t.
Proof. unfold codeUnitCompare. destruct (String.compare s t); reflexivity. Qed.

Lemma string_compare_trans a : forall b c,
  String.compare a b <> Gt -> String.compare b c <> Gt ->
  String.compare a c <> Gt.
Proof.
  induction a as [ | x a IH]; intros [ | y b] [ | z c]; cbn [String.compare];
    try congruence.
  unfold Ascii.compare.
  destruct (N.compare_spec (N_of_ascii x) (N_of_ascii y)),
           (N.compare_spec (N_of_ascii y) (N_of_ascii z)),
           (N.compare_spec (N_of_ascii x) (N_of_ascii z));
    try lia; try congruence; apply IH.
Qed.

Lemma AsciiStrings_consistent : Consistent (@localeCompare AsciiStrings).
Proof.
  split; cbn [localeCompare AsciiStrings].
  - intros a b. rewrite !codeUnitCompare_sign. apply String.compare_antisym.
  - intros a b c. rewrite !codeUnitCompare_sign. apply string_compare_trans.
Qed.

(** ** The heap *)

Lemma heap_write_length h : forall r a,
  List.length (heap_write h r a) = List.length h.
Proof.
  induction h as [ | x h IH]; intros [ | r] a; cbn; auto.
Qed.

Lemma heap_read_write_same h : forall r a,
  (r < List.length h)%nat -> heap_read (heap_write h r a) r = a.
Proof.
  unfold heap_read.
  induction h as [ | x h IH]; intros [ | r] a H; cbn in *; try lia.
  - reflexivity.
  - apply IH. lia.
Qed.

Lemma heap_read_write_other h : forall r r' a,
  r <> r' -> heap_read (heap_write h r a) r' = heap_read h r'.
Proof.
  unfold heap_read.
  induction h as [ | x h IH]; intros [ | r] [ | r'] a H; cbn;
    try reflexivity; try congruence.
  apply IH. congruence.
Qed.

Lemma heap_read_alloc_old h a r :
  (r < List.length h)%nat -> heap_read (h ++ [a]) r = heap_read h r.
Proof. intros H. unfold heap_read. apply app_nth1, H. Qed.

Lemma heap_read_alloc_new h a : heap_read (h ++ [a]) (List.length h) = a.
Proof. unfold heap_read. apply nth_middle. Qed.

Lemma preserves_refl m : preserves m m.
Proof. unfold preserves. auto. Qed.

Lemma preserves_trans m1 m2 m3 :
  preserves m1 m2 -> preserves m2 m3 -> preserves m1 m3.
Proof.
  intros (S1 & U1 & L1 & R1) (S2 & U2 & L2 & R2). unfold preserves.
  repeat split; try congruence; try lia.
  intros r Hr. rewrite R2, R1 by lia. reflexivity.
Qed.

Lemma preserves_snapshot m m' :
  valid m -> preserves m m' -> snapshot m' = snapshot m /\ valid m'.
Proof.
  unfold valid, snapshot. intros V (S & _ & L & R). rewrite S.
  destruct (post_source m) as [r | rows]; [ | auto].
  split; [apply R, V | lia].
Qed.

(** A fetch answers with an array that holds the snapshot; it writes to no
    array. *)
Lemma fetchPosts_spec m : valid m ->
  heap_read (heap (snd (fetchPosts m))) (fst (fetchPosts m)) = snapshot m
  /\ (fst (fetchPosts m) < List.length (heap (snd (fetchPosts m))))%nat
  /\ preserves m (snd (fetchPosts m))
  /\ log (snd (fetchPosts m)) = log m ++ [PostRepository_readAll]
  /\ (forall r, post_source m = OwnArray r -> fst (fetchPosts m) = r)
  /\ (forall rows, post_source m = Rows rows ->
                   fst (fetchPosts m) = List.length (heap m)).
Proof.
  unfold valid, fetchPosts, snapshot, preserves, heap_alloc.
  destruct (post_source m) as [r | rows] eqn:E; cbn [fst snd heap
    post_source user_rows log]; intros V.
  - split; [reflexivity | ]. split; [exact V | ].
    split; [split; [congruence | auto] | ].
    split; [reflexivity | ].
    split; [intros r' H; congruence | intros rows H; discriminate H].
  - rewrite heap_read_alloc_new, length_app. cbn [List.length].
    split; [reflexivity | ]. split; [lia | ].
    split; [ | split; [reflexivity | ];
               split; [intros r H; discriminate H | reflexivity]].
    split; [congruence | ]. split; [reflexivity | ]. split; [lia | ].
    intros r Hr. apply heap_read_alloc_old, Hr.
Qed.

Lemma Array_sort_in_place_spec comparefn p m :
  (p < List.length (heap m))%nat ->
  let m' := snd (Array_sort_in_place comparefn p m) in
  fst (Array_sort_in_place comparefn p m) = p
  /\ heap_read (heap m') p = Array_sort comparefn (heap_read (heap m) p)
  /\ (forall r, r <> p -> heap_read (heap m') r = heap_read (heap m) r)
  /\ post_source m' = post_source m /\ user_rows m' = user_rows m
  /\ log m' = log m.
Proof.
  intros Hp. cbn. repeat split.
  - apply heap_read_write_same, Hp.
  - intros r Hr. apply heap_read_write_other. congruence.
Qed.

Lemma PostsPopularity_execute_on_heap_spec m : valid m ->
  fst (PostsPopularity_execute_on_heap m)
  = computePopularity (snapshot m) (user_rows m)
  /\ preserves m (snd (PostsPopularity_execute_on_heap m))
  /\ log (snd (PostsPopularity_execute_on_heap m))
     = log m ++ [PostRepository_readAll; UserRepository_readAll].
Proof.
  intros V. destruct (fetchPosts_spec m V) as (R & _ & P & L & _).
  unfold PostsPopularity_execute_on_heap, bind_run, fetchUsers, elements,
    unit_run.
  destruct (fetchPosts m) as [f m1]; cbn [fst snd] in *.
  cbn [fst snd heap post_source user_rows log].
  destruct P as (S & U & Hl & Hr).
  rewrite R, U, L, <- app_assoc. repeat split; auto.
Qed.

Section Controller_on_heap_facts.
Context {strings : JsStrings}.

(** What [readAll] does on the heap: it answers with an array that holds
    the listing, logs its fetches, and writes to one array only, the one it
    sorts. *)
Lemma readAll_on_heap_spec order q m : valid m ->
  let fetched := fst (fetchPosts m) in
  let result := fst (readAll_on_heap order q m) in
  let m' := snd (readAll_on_heap order q m) in
  heap_read (heap m') result = listPosts order q (world_of m)
  /\ log m' = calls (snd (readAll order q (world_of m)))
  /\ post_source m' = post_source m
  /\ user_rows m' = user_rows m
  /\ (forall r, (r < List.length (heap m))%nat -> r <> fetched ->
                heap_read (heap m') r = heap_read (heap m) r)
  /\ heap_read (heap m') fetched
     = (if truthy_string q then snapshot m
        else listPosts order q (world_of m)).
Proof.
  intros V.
  destruct (fetchPosts_spec m V) as (R1 & B1 & P1 & L1 & _).
  (* after the fetch and the filter *)
  assert (Hstep : exists p m2,
            (let (f, m1) := fetchPosts m in
             (if truthy_string q
              then match q with
                   | Some s => Array_filter_new (matchesSearch s) f
                   | None => unit_run f
                   end
              else unit_run f) m1) = (p, m2)
            /\ heap_read (heap m2) p = searchFilter q (snapshot m)
            /\ (p < List.length (heap m2))%nat
            /\ preserves m m2
            /\ log m2 = log m ++ [PostRepository_readAll]
            /\ heap_read (heap m2) (fst (fetchPosts m)) = snapshot m
            /\ (fst (fetchPosts m) < List.length (heap m2))%nat
            /\ (if truthy_string q
                then fst (fetchPosts m) <> p
                     /\ (List.length (heap m) <= p)%nat
                else p = fst (fetchPosts m))).
  { destruct (fetchPosts m) as [f m1]; cbn [fst snd] in *.
    unfold searchFilter.
    destruct (truthy_string q) eqn:Tq.
    - destruct q as [s | ]; [ | discriminate].
      unfold Array_filter_new, heap_alloc.
      eexists _, _; split; [reflexivity | ].
      cbn [heap post_source user_rows log].
      destruct P1 as (S1 & U1 & Hl1 & Hr1).
      rewrite heap_read_alloc_new, length_app, R1. cbn [List.length].
      split; [reflexivity | ]. split; [lia | ].
      split; [ | split; [exact L1 | ]; split; [ | split; [lia | split; lia]]].
      + unfold preserves. cbn [heap post_source user_rows].
        rewrite length_app. cbn [List.length].
        split; [exact S1 | ]. split; [exact U1 | ]. split; [lia | ].
        intros r Hr. rewrite heap_read_alloc_old by lia. apply Hr1, Hr.
      + rewrite heap_read_alloc_old by exact B1. exact R1.
    - exists f, m1. unfold unit_run.
      split; [reflexivity | ].
      split; [destruct q as [s | ]; exact R1 | ].
      split; [exact B1 | ]. split; [exact P1 | ]. split; [exact L1 | ].
      split; [exact R1 | ]. split; [exact B1 | reflexivity]. }
  destruct Hstep as (p & m2 & E & Rp & Bp & P2 & L2 & Rf & Bf & Hp).
  destruct (preserves_snapshot m m2 V P2) as [S2 V2].
  cbv zeta.
  assert (Hfinal : forall comparefn m3,
            preserves m2 m3 ->
            heap_read (heap m3) p = heap_read (heap m2) p ->
            heap_read (heap m3) (fst (fetchPosts m))
            = heap_read (heap m2) (fst (fetchPosts m)) ->
            let m' := snd (Array_sort_in_place comparefn p m3) in
            heap_read (heap m') (fst (Array_sort_in_place comparefn p m3))
            = Array_sort comparefn (searchFilter q (snapshot m))
            /\ log m' = log m3
            /\ post_source m' = post_source m
            /\ user_rows m' = user_rows m
            /\ (forall r, (r < List.length (heap m))%nat ->
                   r <> fst (fetchPosts m) ->
                   heap_read (heap m') r = heap_read (heap m) r)
            /\ heap_read (heap m') (fst (fetchPosts m))
               = (if truthy_string q then snapshot m
                  else Array_sort comparefn (searchFilter q (snapshot m)))).
  { intros comparefn m3 P3 Ep Ef.
    pose proof (preserves_trans m m2 m3 P2 P3) as (S3 & U3 & Hl3 & Hr3).
    assert (Bp3 : (p < List.length (heap m3))%nat)
      by (destruct P3 as (_ & _ & H & _); lia).
    destruct (Array_sort_in_place_spec comparefn p m3 Bp3)
      as (Er & Es & Eo & Eps & Eu & El).
    cbv zeta. rewrite Er, Es, Ep, Rp, Eps, Eu.
    repeat split; auto.
    - intros r Hr Hne.
      destruct (truthy_string q).
      + rewrite Eo by lia. apply Hr3, Hr.
      + subst p. rewrite Eo by congruence. apply Hr3, Hr.
    - destruct (truthy_string q).
      + rewrite Eo by (destruct Hp; congruence). rewrite Ef. exact Rf.
      + subst p. rewrite Es, Ep, Rp. reflexivity. }
  clear R1 B1 P1 L1.
  remember (fst (fetchPosts m)) as fetched eqn:Ef in *.
  unfold readAll_on_heap, bind_run. revert E.
  destruct (fetchPosts m) as [f m1]. intros E. rewrite E. clear E Ef f m1.
  unfold listPosts, readAll, bind, ReadAllPosts_execute,
    PostsPopularity_execute, postRepository_readAll, userRepository_readAll,
    ret, called.
  cbn [world_of stored_posts stored_users calls fst snd].
  assert (Hplain : forall comparefn,
            let m' := snd (Array_sort_in_place comparefn p m2) in
            heap_read (heap m') (fst (Array_sort_in_place comparefn p m2))
            = Array_sort comparefn (searchFilter q (snapshot m))
            /\ log m' = log m ++ [PostRepository_readAll]
            /\ post_source m' = post_source m
            /\ user_rows m' = user_rows m
            /\ (forall r, (r < List.length (heap m))%nat -> r <> fetched ->
                   heap_read (heap m') r = heap_read (heap m) r)
            /\ heap_read (heap m') fetched
               = (if truthy_string q then snapshot m
                  else Array_sort comparefn (searchFilter q (snapshot m)))).
  { intros comparefn.
    destruct (Hfinal comparefn m2 (preserves_refl m2) eq_refl eq_refl)
      as (A1 & A2 & A3).
    split; [exact A1 | ]. split; [rewrite A2; exact L2 | exact A3]. }
  destruct order as [o | ]; [ | exact (Hplain byDateDesc)].
  destruct (o =? "nombre-asc")%string; [exact (Hplain byTitleAsc) | ].
  destruct (o =? "nombre-desc")%string; [exact (Hplain byTitleDesc) | ].
  destruct ((o =? "popularidad-asc") || (o =? "popularidad-desc"))%string;
    [ | exact (Hplain byDateDesc)].
  destruct (PostsPopularity_execute_on_heap_spec m2 V2) as (Esc & P3 & L3).
  destruct (PostsPopularity_execute_on_heap m2) as [sc m3].
  cbn [fst snd] in Esc, P3, L3. subst sc.
  assert (U2 : user_rows m2 = user_rows m) by (destruct P2 as (_ & H & _); exact H).
  rewrite S2, U2.
  assert (Ep : heap_read (heap m3) p = heap_read (heap m2) p)
    by (destruct P3 as (_ & _ & _ & H); apply H, Bp).
  assert (Efe : heap_read (heap m3) fetched = heap_read (heap m2) fetched)
    by (destruct P3 as (_ & _ & _ & H); apply H, Bf).
  destruct (Hfinal
              (byPopularity o (computePopularity (snapshot m) (user_rows m)))
              m3 P3 Ep Efe) as (A1 & A2 & A3).
  unfold bind. cbn [fst snd calls stored_posts stored_users].
  split; [exact A1 | ].
  split; [rewrite A2, L3, L2, <- !app_assoc; reflexivity | exact A3].
Qed.

End Controller_on_heap_facts.

(* ================================================================== *)
(** * Part III: the claims of the specification *)

Module Claims.
Import JsNumber JsNumberFacts PopularityFacts ComparatorFacts DateFacts.

(** ** Popularity computation *)

(** C1. [computePopularity posts users] has exactly one entry per input
    post, in the order of the input: the entry of a post is its id with
    [likeCount / (totalUserCount - 1)] when that quotient is [>= 0] and
    with 0 otherwise, [likeCount] being the number of attached likes (0 for
    an absent collection).  An empty post list gives an empty result, and
    [PostsPopularity.execute] returns this list for the two fetched
    snapshots. *)
Theorem computePopularity_entries (posts : list Post) (users : list User) :
  computePopularity posts users
  = map (fun post =>
           {| pp_id := id post;
              popularity :=
                clamp (rawScore (likeCount post) (List.length users)) |})
        posts
  /\ List.length (computePopularity posts users) = List.length posts
  /\ map pp_id (computePopularity posts users) = map id posts
  /\ (forall i post,
        nth_error posts i = Some post ->
        nth_error (computePopularity posts users) i
        = Some {| pp_id := id post;
                  popularity :=
                    clamp (rawScore (likeCount post) (List.length users)) |})
  /\ computePopularity [] users = []
  /\ (forall w,
        fst (PostsPopularity_execute w)
        = computePopularity (stored_posts w) (stored_users w)).
Proof.
  assert (E : forall post,
             popularityOf users post
             = {| pp_id := id post;
                  popularity :=
                    clamp (rawScore (likeCount post) (List.length users)) |})
    by (intros; apply popularityOf_spec).
  unfold computePopularity. repeat split.
  - apply map_ext, E.
  - apply length_map.
  - rewrite map_map. apply map_ext. intros post. rewrite E. reflexivity.
  - intros i post H. rewrite <- E. apply map_nth_error, H.
Qed.

(** C2. With at most one user the clamp rule meets the special values of
    IEEE division.  One user: a post without likes has the raw score
    [0 / 0 = NaN], which fails [>= 0], and gets 0; a post with likes has the
    raw score [Infinity], which passes and is returned as it is.  No user
    (denominator -1): a post with likes has a raw score that fails [>= 0]
    and gets 0; a post without likes has the raw score [0 / -1], a zero
    (the negative one), which passes [>= 0] and is kept. *)
Theorem computePopularity_few_users
    (posts : list Post) (users : list User) (i : nat) (post : Post) :
  (List.length users <= 1)%nat ->
  nth_error posts i = Some post ->
  exists entry,
    nth_error (computePopularity posts users) i = Some entry
    /\ pp_id entry = id post
    /\ (List.length users = 1%nat -> likeCount post = 0%nat ->
        rawScore (likeCount post) (List.length users) = NaN
        /\ ge NaN zero = false
        /\ popularity entry = zero)
    /\ (List.length users = 1%nat -> (0 < likeCount post)%nat ->
        rawScore (likeCount post) (List.length users) = Infinity
        /\ ge Infinity zero = true
        /\ popularity entry = Infinity)
    /\ (List.length users = 0%nat -> (0 < likeCount post)%nat ->
        ge (rawScore (likeCount post) (List.length users)) zero = false
        /\ popularity entry = zero)
    /\ (List.length users = 0%nat -> likeCount post = 0%nat ->
        rawScore (likeCount post) (List.length users) = neg_zero
        /\ ge neg_zero zero = true
        /\ popularity entry = neg_zero
        /\ strict_eq (popularity entry) zero = true).
Proof.
  intros _ Hi.
  exists (popularityOf users post). split; [ | split].
  - apply map_nth_error, Hi.
  - rewrite popularityOf_spec. reflexivity.
  - rewrite popularityOf_spec. cbn [popularity]. unfold clamp.
    split; [ | split; [ | split]]; intros Hu Hl; rewrite Hu.
    + rewrite Hl, rawScore_one_user_no_like. repeat split.
    + rewrite (rawScore_one_user_likes _ Hl). repeat split.
    + rewrite (rawScore_no_user_likes _ Hl). repeat split.
    + rewrite Hl, rawScore_no_user_no_like. repeat split.
Qed.

Lemma computePopularity_few_users_witness :
  exists entry,
    nth_error (computePopularity Sample.posts [Sample.user 1 "Ana" "a@b.c"]) 0
    = Some entry
    /\ popularity entry = Infinity.
Proof.
  destruct (computePopularity_few_users Sample.posts
              [Sample.user 1 "Ana" "a@b.c"] 0 Sample.banana)
    as (entry & E & _ & _ & H & _).
  - cbn. lia.
  - reflexivity.
  - exists entry. split; [exact E | ].
    apply H; [reflexivity | cbn; lia].
Defined.

(** C8. [computePopularity] is deterministic and pure: running the use case
    again on the world it leaves behind returns the same scores, and a run
    changes neither the stored posts nor the stored users. *)
Theorem PostsPopularity_execute_pure (w : World) :
  let (scores1, w1) := PostsPopularity_execute w in
  let (scores2, w2) := PostsPopularity_execute w1 in
  scores1 = scores2
  /\ scores1 = computePopularity (stored_posts w) (stored_users w)
  /\ stored_posts w1 = stored_posts w /\ stored_users w1 = stored_users w
  /\ stored_posts w2 = stored_posts w /\ stored_users w2 = stored_users w.
Proof. cbn. repeat split. Qed.

(** C10. The denominator counts every user of the snapshot, whatever its
    role or banned flag: only the number of users matters.  The like count
    is the number of attached Like records, whatever user each refers to:
    two posts with the same id and as many likes get the same entry, and
    one more like by any user, even one that liked already, counts as one
    more. *)
Theorem computePopularity_counts_everyone
    (posts : list Post) (users users' : list User) :
  List.length users = List.length users' ->
  computePopularity posts users = computePopularity posts users'
  /\ (forall change : User -> User,
        computePopularity posts (map change users)
        = computePopularity posts users)
  /\ (forall post post',
        id post = id post' -> likeCount post = likeCount post' ->
        popularityOf users post = popularityOf users post')
  /\ (forall post l ls,
        likes post = Some ls ->
        forall post', id post' = id post -> likes post' = Some (l :: ls) ->
        likeCount post' = S (likeCount post)
        /\ popularityOf users post'
           = {| pp_id := id post;
                popularity :=
                  clamp (rawScore (S (List.length ls)) (List.length users)) |}).
Proof.
  intros Hlen. unfold computePopularity.
  split; [ | split; [ | split]].
  - apply map_ext. intros post. rewrite !popularityOf_spec, Hlen. reflexivity.
  - intros change. apply map_ext. intros post.
    rewrite !popularityOf_spec, length_map. reflexivity.
  - intros post post' Hid Hl. rewrite !popularityOf_spec, Hid, Hl. reflexivity.
  - intros post l ls Hls post' Hid Hls'. split.
    + unfold likeCount. rewrite Hls, Hls'. reflexivity.
    + rewrite popularityOf_spec. unfold likeCount. rewrite Hid, Hls'.
      reflexivity.
Qed.

Lemma computePopularity_counts_everyone_witness :
  computePopularity Sample.posts Sample.users
  = computePopularity Sample.posts Sample.mockUsers.
Proof.
  apply (computePopularity_counts_everyone Sample.posts Sample.users
           Sample.mockUsers).
  reflexivity.
Defined.

(** ** Ranked listing *)

Section Listing.
Context {strings : JsStrings}.

(** C3. For the keys "popularidad-asc" and "popularidad-desc", [listPosts]
    computes the scores over the whole snapshot of posts and users, not over
    the posts that pass the filter, and answers with the filtered posts
    sorted by looked-up popularity, ascending or descending; a post whose id
    is missing from the scores is looked up as 0.  The key of a post of a
    snapshot with distinct ids is its own clamped score. *)
Theorem listPosts_by_popularity (q : option string) (w : World) :
  let scores := computePopularity (stored_posts w) (stored_users w) in
  let filtered := searchFilter q (stored_posts w) in
  let key p := value (popularityLookup scores p) in
  (listPosts (Some "popularidad-asc"%string) q w
   = Array_sort (byPopularity "popularidad-asc" scores) filtered
   /\ Permutation (listPosts (Some "popularidad-asc"%string) q w) filtered
   /\ StronglySorted (fun a b => Ext_le (key a) (key b))
        (listPosts (Some "popularidad-asc"%string) q w))
  /\ (listPosts (Some "popularidad-desc"%string) q w
      = Array_sort (byPopularity "popularidad-desc" scores) filtered
      /\ Permutation (listPosts (Some "popularidad-desc"%string) q w) filtered
      /\ StronglySorted (fun a b => Ext_le (key b) (key a))
           (listPosts (Some "popularidad-desc"%string) q w))
  /\ (forall p, ~ In (id p) (map pp_id scores) ->
                popularityLookup scores p = zero)
  /\ (forall p, is_nan (popularityLookup scores p) = false)
  /\ (NoDup (map id (stored_posts w)) ->
      forall p, In p (stored_posts w) ->
        key p = value (clamp (rawScore (likeCount p)
                                (List.length (stored_users w))))).
Proof.
  intros scores filtered key.
  pose proof (computePopularity_usable (stored_posts w) (stored_users w))
    as Hu. fold scores in Hu.
  repeat split.
  - apply listPosts_perm.
  - unfold listPosts. rewrite readAll_popularidad_asc. cbn [fst].
    fold scores filtered.
    eapply StronglySorted_impl;
      [ | apply Array_sort_sorted, byPopularity_asc_consistent, Hu].
    intros a b _ _ H. unfold Ext_le, key.
    rewrite <- byPopularity_sign_asc by exact Hu. exact H.
  - apply listPosts_perm.
  - unfold listPosts. rewrite readAll_popularidad_desc. cbn [fst].
    fold scores filtered.
    eapply StronglySorted_impl;
      [ | apply Array_sort_sorted, byPopularity_desc_consistent, Hu].
    intros a b _ _ H. unfold Ext_le, key.
    rewrite <- byPopularity_sign_desc by exact Hu. exact H.
  - intros p. apply popularityLookup_missing.
  - intros p. apply popularityLookup_usable, Hu.
  - intros Hnd p Hp. unfold key.
    rewrite (popularityLookup_found scores p
               (popularityOf (stored_users w) p)).
    + rewrite popularityOf_spec. reflexivity.
    + apply find_popularityOf; assumption.
Qed.

(** C4, as the code has it.  "nombre-desc" lists the exact reverse of
    "nombre-asc" when no two listed posts have titles that compare equal,
    and "popularidad-asc" the exact reverse of "popularidad-desc" when no two
    listed posts have the same looked-up popularity; [localeCompare] is
    taken to be a consistent comparator.  In every case the two listings
    hold the same posts. *)
Theorem listPosts_reverse_without_ties (q : option string) (w : World) :
  let scores := computePopularity (stored_posts w) (stored_users w) in
  let filtered := searchFilter q (stored_posts w) in
  (Consistent localeCompare ->
   NoTies byTitleAsc filtered ->
   listPosts (Some "nombre-desc"%string) q w
   = rev (listPosts (Some "nombre-asc"%string) q w))
  /\ (NoTies (byPopularity "popularidad-desc" scores) filtered ->
      listPosts (Some "popularidad-asc"%string) q w
      = rev (listPosts (Some "popularidad-desc"%string) q w))
  /\ Permutation (listPosts (Some "nombre-desc"%string) q w)
       (listPosts (Some "nombre-asc"%string) q w)
  /\ Permutation (listPosts (Some "popularidad-asc"%string) q w)
       (listPosts (Some "popularidad-desc"%string) q w).
Proof.
  intros scores filtered. split; [ | split; [ | split]].
  - intros Hc Hn. unfold listPosts.
    rewrite readAll_nombre_asc, readAll_nombre_desc. cbn [fst].
    apply (Array_sort_swap Post byTitleAsc);
      [apply byTitleAsc_consistent, Hc | exact Hn].
  - intros Hn. unfold listPosts.
    rewrite readAll_popularidad_asc, readAll_popularidad_desc. cbn [fst].
    apply (Array_sort_swap Post (byPopularity "popularidad-desc" scores));
      [ | exact Hn].
    apply byPopularity_desc_consistent, computePopularity_usable.
  - rewrite !listPosts_perm. reflexivity.
  - rewrite !listPosts_perm. reflexivity.
Qed.

(** C5. With a non-empty search string, [listPosts] keeps exactly the posts
    whose title or content contains the search string, both sides in lower
    case; for a post without content only the title is checked.  This holds
    for every order key. *)
Theorem listPosts_search
    (order : option string) (q : string) (w : World) (p : Post) :
  q <> ""%string ->
  (In p (listPosts order (Some q) w)
   <-> In p (stored_posts w)
       /\ (occurs_in (toLowerCase q) (toLowerCase (title p))
           \/ exists c, content p = Some c
                        /\ occurs_in (toLowerCase q) (toLowerCase c)))
  /\ (content p = None ->
      (In p (listPosts order (Some q) w)
       <-> In p (stored_posts w)
           /\ occurs_in (toLowerCase q) (toLowerCase (title p))))
  /\ Permutation (listPosts order (Some q) w)
       (filter (matchesSearch q) (stored_posts w)).
Proof.
  intros Hq.
  assert (Hp : Permutation (listPosts order (Some q) w)
                 (filter (matchesSearch q) (stored_posts w)))
    by (rewrite listPosts_perm, searchFilter_some by exact Hq; reflexivity).
  assert (Hin : In p (listPosts order (Some q) w)
                <-> In p (stored_posts w) /\ matchesSearch q p = true).
  { rewrite <- filter_In. split; apply Permutation_in;
      [ | symmetry]; exact Hp. }
  split; [ | split; [ | exact Hp]].
  - rewrite Hin, matchesSearch_spec. reflexivity.
  - intros Hc. rewrite Hin, matchesSearch_spec.
    split; intros [H1 H2]; (split; [exact H1 | ]).
    + destruct H2 as [H2 | (c & E & _)]; [exact H2 | congruence].
    + left; exact H2.
Qed.

(** C6, as the code has it.  On a machine whose arrays are objects, a
    request makes one [readAll] on the post repository and, for the two
    popularity keys only, a second [readAll] on the post repository followed
    by one on the user repository, and no other call.  It leaves the
    repositories and every array that was there as they were, but for the
    array its first fetch answered with: without a search query that array
    is sorted where it is and ends up holding the listing, and with a query
    it is left as fetched.  The array answered holds the listing. *)
Theorem readAll_fetches
    (order : option string) (q : option string) (m : Machine) :
  valid m ->
  let fetched := fst (fetchPosts m) in
  let m' := snd (readAll_on_heap order q m) in
  log m'
  = log m ++
    (if isPopularityKey order
     then [PostRepository_readAll; PostRepository_readAll;
           UserRepository_readAll]
     else [PostRepository_readAll])
  /\ post_source m' = post_source m
  /\ user_rows m' = user_rows m
  /\ (forall r, (r < List.length (heap m))%nat -> r <> fetched ->
                heap_read (heap m') r = heap_read (heap m) r)
  /\ heap_read (heap m') fetched
     = (if truthy_string q then snapshot m
        else listPosts order q (world_of m))
  /\ heap_read (heap m') (fst (readAll_on_heap order q m))
     = listPosts order q (world_of m).
Proof.
  intros V.
  destruct (readAll_on_heap_spec order q m V)
    as (Hres & Hlog & Hsrc & Husers & Hframe & Hfetched).
  cbv zeta.
  split; [rewrite Hlog, readAll_world; reflexivity | ].
  split; [exact Hsrc | ]. split; [exact Husers | ].
  split; [exact Hframe | ]. split; [exact Hfetched | exact Hres].
Qed.

(** C7. For an absent order key and for any key other than the four named
    ones, [listPosts] answers with the filtered posts sorted by creation
    time, most recent first. *)
Theorem listPosts_default_order
    (order : option string) (q : option string) (w : World) :
  order <> Some "nombre-asc"%string ->
  order <> Some "nombre-desc"%string ->
  order <> Some "popularidad-asc"%string ->
  order <> Some "popularidad-desc"%string ->
  Permutation (listPosts order q w) (searchFilter q (stored_posts w))
  /\ StronglySorted
       (fun a b => timeValue (date b) <= timeValue (date a))
       (listPosts order q w).
Proof.
  intros H1 H2 H3 H4. split; [apply listPosts_perm | ].
  assert (En : isNameKey order = false).
  { destruct order as [o | ]; [ | reflexivity]. cbn.
    apply orb_false_iff; split; apply String.eqb_neq; congruence. }
  assert (Ep : isPopularityKey order = false).
  { destruct order as [o | ]; [ | reflexivity]. cbn.
    apply orb_false_iff; split; apply String.eqb_neq; congruence. }
  unfold listPosts. rewrite readAll_default by assumption. cbn [fst].
  eapply StronglySorted_impl;
    [ | apply Array_sort_sorted, byDateDesc_consistent].
  intros a b _ _ H. cbv beta in H. rewrite byDateDesc_sign in H.
  apply Z.compare_le_iff, H.
Qed.

(** C9. Neither function looks at the [deleted] flag.  A soft-deleted post
    of the snapshot that passes the search filter is in the listing, for
    every order key, and the filter and the score of a post do not change
    with its flag; every post of the snapshot has its entry among the
    scores. *)
Theorem soft_deleted_posts_are_kept
    (order : option string) (q : option string) (w : World) (p : Post) :
  deleted p = true ->
  In p (searchFilter q (stored_posts w)) ->
  In p (listPosts order q w)
  /\ In (popularityOf (stored_users w) p)
       (computePopularity (stored_posts w) (stored_users w))
  /\ (forall flag users,
        popularityOf users (with_deleted flag p) = popularityOf users p)
  /\ (forall flag s,
        matchesSearch s (with_deleted flag p) = matchesSearch s p).
Proof.
  intros _ Hin. repeat split.
  - eapply Permutation_in; [symmetry; apply listPosts_perm | exact Hin].
  - apply in_map. eapply searchFilter_incl, Hin.
Qed.

End Listing.

(** C4 as stated fails: two posts with the same title and no likes are
    listed in the same order by both keys of each pair. *)
Lemma listPosts_reverse_counterexample :
  listPosts (Some "nombre-desc"%string) None Sample.twins
  <> rev (listPosts (Some "nombre-asc"%string) None Sample.twins)
  /\ listPosts (Some "popularidad-asc"%string) None Sample.twins
     <> rev (listPosts (Some "popularidad-desc"%string) None Sample.twins).
Proof. split; vm_compute; intros H; discriminate H. Qed.

(** C6 as stated fails: ordering by name fetches the posts only, ordering
    by popularity fetches the posts twice, and a repository that answers
    with its own array finds it reordered after a request with no query. *)
Lemma readAll_fetches_counterexample :
  ~ Permutation
      (calls (snd (readAll (Some "nombre-asc"%string) None Sample.world)))
      [PostRepository_readAll; UserRepository_readAll]
  /\ ~ Permutation
        (calls (snd (readAll (Some "popularidad-asc"%string) None
                       Sample.world)))
        [PostRepository_readAll; UserRepository_readAll]
  /\ ~ Permutation
        (log (snd (readAll_on_heap (Some "nombre-asc"%string) None
                     Sample.own_array_machine)))
        [PostRepository_readAll; UserRepository_readAll]
  /\ ~ Permutation
        (log (snd (readAll_on_heap (Some "popularidad-asc"%string) None
                     Sample.own_array_machine)))
        [PostRepository_readAll; UserRepository_readAll]
  /\ snapshot Sample.own_array_machine
     = [Sample.banana; Sample.apple; Sample.cherry]
  /\ snapshot (snd (readAll_on_heap None None Sample.own_array_machine))
     = [Sample.banana; Sample.cherry; Sample.apple]
  /\ snapshot (snd (readAll_on_heap None None Sample.own_array_machine))
     <> snapshot Sample.own_array_machine.
Proof.
  split; [intros H; apply Permutation_length in H; discriminate H | ].
  split; [intros H; apply Permutation_length in H; discriminate H | ].
  split; [intros H; apply Permutation_length in H; discriminate H | ].
  split; [intros H; apply Permutation_length in H; discriminate H | ].
  split; [reflexivity | ]. split; [vm_compute; reflexivity | ].
  vm_compute. intros H. discriminate H.
Qed.

Lemma readAll_fetches_witness :
  valid Sample.own_array_machine
  /\ log (snd (readAll_on_heap (Some "popularidad-desc"%string) None
                 Sample.own_array_machine))
     = [PostRepository_readAll; PostRepository_readAll;
        UserRepository_readAll]
  /\ user_rows (snd (readAll_on_heap (Some "popularidad-desc"%string) None
                       Sample.own_array_machine))
     = Sample.users
  /\ heap_read
       (heap (snd (readAll_on_heap (Some "popularidad-desc"%string) None
                     Sample.own_array_machine))) 0%nat
     = listPosts (Some "popularidad-desc"%string) None
         (world_of Sample.own_array_machine).
Proof.
  assert (V : valid Sample.own_array_machine) by exact (le_n 1).
  split; [exact V | ].
  destruct (readAll_fetches (Some "popularidad-desc"%string) None
              Sample.own_array_machine V)
    as (Hlog & _ & Husers & _ & Hfetched & _).
  split; [exact Hlog | ]. split; [exact Husers | exact Hfetched].
Defined.

Lemma computePopularity_entries_witness :
  nth_error (computePopularity Sample.posts Sample.users) 1
  = Some {| pp_id := 2;
            popularity := S754_finite false 4503599627370496 (-53) |}.
Proof.
  destruct (computePopularity_entries Sample.posts Sample.users)
    as (_ & _ & _ & H & _).
  exact (H 1%nat Sample.apple eq_refl).
Defined.

Lemma listPosts_by_popularity_witness :
  value (popularityLookup
           (computePopularity Sample.posts Sample.users) Sample.banana)
  = value (clamp (rawScore 2 3)).
Proof.
  destruct (listPosts_by_popularity None Sample.world)
    as (_ & _ & _ & _ & H).
  apply H.
  - repeat constructor; cbn; intuition discriminate.
  - left; reflexivity.
Defined.

Lemma listPosts_reverse_without_ties_witness :
  listPosts (Some "nombre-desc"%string) None Sample.world
  = rev (listPosts (Some "nombre-asc"%string) None Sample.world).
Proof.
  destruct (listPosts_reverse_without_ties None Sample.world) as [H _].
  apply H; [exact AsciiStrings_consistent | ].
  repeat constructor; vm_compute; discriminate.
Defined.

Lemma listPosts_search_witness :
  In Sample.apple (listPosts None (Some "FRUIT"%string) Sample.world).
Proof.
  destruct (listPosts_search None "FRUIT" Sample.world Sample.apple)
    as [H _]; [discriminate | ].
  apply H. split; [right; left; reflexivity | ].
  left. exists "apple "%string, ""%string. reflexivity.
Defined.

Lemma listPosts_default_order_witness :
  StronglySorted
    (fun a b => timeValue (date b) <= timeValue (date a))
    (listPosts (Some "fecha"%string) None Sample.world).
Proof.
  destruct (listPosts_default_order (Some "fecha"%string) None Sample.world)
    as [_ H]; try discriminate.
  exact H.
Defined.

Lemma soft_deleted_posts_are_kept_witness :
  In Sample.apple (listPosts (Some "nombre-asc"%string) None Sample.world).
Proof.
  destruct (soft_deleted_posts_are_kept (Some "nombre-asc"%string) None
              Sample.world Sample.apple) as [H _].
  - reflexivity.
  - right; left; reflexivity.
  - exact H.
Defined.

End Claims.

(* ================================================================== *)
(** * Part IV: more properties of the program *)

(** ** Exact arithmetic on small integers *)

Section Rounding_exact.
Variables prec emax : Z.
Hypothesis prec_pos : 0 < prec.
Hypothesis prec_lt_emax : prec < emax.

Local Abbreviation emin := (emin prec emax).

Lemma digits2_pos_upper m : Zpos m < 2 ^ Zpos (digits2_pos m).
Proof.
  induction m as [m IH | m IH | ]; cbn [digits2_pos];
    try rewrite Pos2Z.inj_succ, Z.pow_succ_r by lia.
  - change (Zpos m~1) with (2 * Zpos m + 1). set (t := 2 ^ _) in *. lia.
  - change (Zpos m~0) with (2 * Zpos m). set (t := 2 ^ _) in *. lia.
  - reflexivity.
Qed.

Lemma scaled_is_shift p n k :
  Zpos p = Zpos n * 2 ^ Zpos k -> p = Pos.iter xO n k.
Proof.
  intros H. apply Pos2Z.inj. rewrite H.
  change (Pos.iter xO n k) with (shift_pos k n).
  rewrite shift_pos_correct. apply Z.mul_comm.
Qed.

Lemma digits2_pos_scaled p n j : 0 <= j ->
  Zpos p = Zpos n * 2 ^ j ->
  Zpos (digits2_pos p) = Zpos (digits2_pos n) + j.
Proof.
  intros Hj H. destruct j as [ | k | k]; try lia.
  - rewrite Z.pow_0_r in H. replace p with n by lia. lia.
  - rewrite (scaled_is_shift p n k H). apply digits2_pos_shift.
Qed.

(** Shifting out zero bits loses nothing. *)
Lemma iter_shr_1_exact t : forall m,
  0 < m ->
  Nat.iter t shr_1 (Build_shr_record (m * 2 ^ Z.of_nat t) false false)
  = Build_shr_record m false false.
Proof.
  induction t as [ | t IH]; intros m Hm.
  - cbn [Nat.iter]. rewrite Z.pow_0_r, Z.mul_1_r. reflexivity.
  - rewrite Nat.iter_succ_r, Nat2Z.inj_succ, Z.pow_succ_r by lia.
    replace (m * (2 * 2 ^ Z.of_nat t)) with (2 * (m * 2 ^ Z.of_nat t)) by lia.
    assert (H : 0 < m * 2 ^ Z.of_nat t)
      by (apply Z.mul_pos_pos; [exact Hm | apply Z.pow_pos_nonneg; lia]).
    destruct (m * 2 ^ Z.of_nat t) as [ | q | q] eqn:E; try lia.
    cbn [shr_1 Z.mul Pos.mul orb]. rewrite <- E. apply IH, Hm.
Qed.

(** The explicit form of an integer of at most [prec] digits. *)
Lemma binary_round_integer_explicit s m :
  Zpos m < 2 ^ prec ->
  exists m',
    binary_round prec emax s m 0
    = S754_finite s m' (Zpos (digits2_pos m) - prec)
    /\ Zpos m' = Zpos m * 2 ^ (prec - Zpos (digits2_pos m))
    /\ Zpos (digits2_pos m') = prec.
Proof.
  intros Hm. unfold binary_round.
  pose proof (digits2_pos_lower m) as Hd.
  set (d := Zpos (digits2_pos m)) in *.
  assert (Hd' : d <= prec).
  { destruct (Z_le_gt_dec d prec) as [ | Hgt]; [assumption | exfalso].
    assert (2 ^ prec <= 2 ^ (d - 1)) by (apply Z.pow_le_mono_r; lia). lia. }
  assert (Hf : fexp prec emax (d + 0) = d - prec).
  { unfold fexp, SpecFloat.emin. subst d. lia. }
  rewrite Hf.
  pose proof (shl_align_value m 0 (d - prec) ltac:(lia)) as Hv.
  unfold shl_align in *.
  destruct (d - prec - 0) as [ | k | k] eqn:Ek; cbn [fst] in Hv.
  - rewrite binary_round_aux_canonical;
      try (unfold SpecFloat.emin; subst d; lia).
    exists m. replace (d - prec) with 0 by lia.
    replace (prec - d) with 0 by lia. rewrite Z.pow_0_r.
    repeat split; fold d; lia.
  - lia.
  - assert (Hdk : Zpos (digits2_pos (Pos.iter xO m k)) = prec)
      by (rewrite digits2_pos_shift; fold d; lia).
    rewrite binary_round_aux_canonical;
      try (unfold SpecFloat.emin; subst d; lia); try exact Hdk.
    exists (Pos.iter xO m k). split; [reflexivity | split; [ | exact Hdk]].
    rewrite Hv. f_equal. f_equal. lia.
Qed.

(** An integer written with trailing zero bits rounds to the same
    number. *)
Lemma binary_round_scaled s p n j :
  0 <= j -> emin <= - j ->
  Zpos p = Zpos n * 2 ^ j ->
  Zpos n < 2 ^ prec ->
  binary_round prec emax s p (- j) = binary_round prec emax s n 0.
Proof.
  intros Hj Hmin Hp Hn.
  destruct (binary_round_integer_explicit s n Hn) as (m' & -> & Hm' & Hdm').
  pose proof (digits2_pos_scaled p n j Hj Hp) as Hdp.
  pose proof (digits2_pos_lower n) as Hlow.
  set (d := Zpos (digits2_pos n)) in *.
  assert (Hd : d <= prec).
  { destruct (Z_le_gt_dec d prec) as [ | Hgt]; [assumption | exfalso].
    assert (2 ^ prec <= 2 ^ (d - 1)) by (apply Z.pow_le_mono_r; lia). lia. }
  assert (Hd1 : 1 <= d) by (subst d; lia).
  assert (Hemin : emin <= d - prec) by (unfold SpecFloat.emin; lia).
  assert (Hemax : d - prec <= emax - prec) by lia.
  unfold binary_round. rewrite Hdp.
  replace (d + j + - j) with d by lia.
  assert (Hf : fexp prec emax d = d - prec) by (unfold fexp; lia).
  rewrite Hf.
  pose proof (shl_align_value p (- j) (d - prec)) as Hv.
  unfold shl_align in *.
  destruct (d - prec - - j) as [ | t | t] eqn:Et; cbn [fst] in Hv.
  - (* already at the target exponent *)
    assert (p = m').
    { apply Pos2Z.inj. rewrite Hm', Hp. f_equal. f_equal. lia. }
    subst p. replace (- j) with (d - prec) by lia.
    apply binary_round_aux_canonical; assumption.
  - (* too many digits: the zero bits are shifted out *)
    unfold binary_round_aux, shr_fexp, shr. cbn [Zdigits2 shr_record_of_loc].
    rewrite Hdp. replace (d + j + - j) with d by lia. rewrite Hf, Et.
    rewrite iter_pos_nat.
    assert (Hpm : Zpos p = Zpos m' * 2 ^ Z.of_nat (Pos.to_nat t)).
    { rewrite positive_nat_Z, Hm', Hp, <- Z.mul_assoc, <- Z.pow_add_r by lia.
      f_equal. f_equal. lia. }
    rewrite Hpm, iter_shr_1_exact by lia.
    cbn [shr_m loc_of_shr_record round_nearest_even Zdigits2 shr_record_of_loc].
    rewrite Hdm'. replace (- j + Zpos t) with (d - prec) by lia.
    replace (fexp prec emax (prec + (d - prec)) - (d - prec)) with 0
      by (unfold fexp; lia).
    cbn [shr_m]. apply Z.leb_le in Hemax. rewrite Hemax. reflexivity.
  - (* too few digits: the mantissa is shifted left *)
    specialize (Hv ltac:(lia)).
    assert (Hq : Pos.iter xO p t = m').
    { apply Pos2Z.inj.
      rewrite Hv, Hm', Hp, <- Z.mul_assoc, <- Z.pow_add_r by lia.
      f_equal. f_equal. lia. }
    rewrite Hq. apply binary_round_aux_canonical; assumption.
Qed.

End Rounding_exact.

Section Rounding_bounds.
Variables prec emax : Z.
Hypothesis prec_pos : 0 < prec.

Local Abbreviation emin := (emin prec emax).

Lemma digits2_pos_le m k : Zpos m < 2 ^ k -> Zpos (digits2_pos m) <= k.
Proof.
  intros H. pose proof (digits2_pos_lower m) as Hd.
  destruct (Z_le_gt_dec (Zpos (digits2_pos m)) k) as [ | Hgt];
    [assumption | exfalso].
  assert (2 ^ k <= 2 ^ (Zpos (digits2_pos m) - 1))
    by (apply Z.pow_le_mono_r; lia).
  lia.
Qed.

Lemma shr_1_upper r : 0 <= shr_m r -> 0 <= shr_m (shr_1 r) <= shr_m r.
Proof.
  destruct r as [m b s]; cbn [shr_m shr_1].
  destruct m as [ | [p | p | ] | p]; cbn [shr_m]; lia.
Qed.

Lemma iter_shr_1_upper n r :
  0 <= shr_m r -> 0 <= shr_m (Nat.iter n shr_1 r) <= shr_m r.
Proof.
  intros H. induction n as [ | n IH];
    [change (Nat.iter 0 shr_1 r) with r; lia | ].
  change (Nat.iter (S n) shr_1 r) with (shr_1 (Nat.iter n shr_1 r)).
  pose proof (shr_1_upper (Nat.iter n shr_1 r) (proj1 IH)). lia.
Qed.

(** Shifting to the format never grows the mantissa, and leaves the
    exponent where it was or at the one of the format. *)
Lemma shr_fexp_upper m e l : 0 <= m ->
  shr_m (fst (shr_fexp prec emax m e l)) <= m
  /\ (snd (shr_fexp prec emax m e l) = e
      \/ snd (shr_fexp prec emax m e l) = fexp prec emax (Zdigits2 m + e)).
Proof.
  intros Hm. unfold shr_fexp, shr.
  pose proof (shr_m_of_loc m l) as E.
  destruct (fexp prec emax (Zdigits2 m + e) - e) as [ | p | p] eqn:En;
    cbn [fst snd]; try (rewrite E; split; [lia | left; reflexivity]).
  split.
  - rewrite iter_pos_nat.
    pose proof (iter_shr_1_upper (Pos.to_nat p) (shr_record_of_loc m l)
                  ltac:(rewrite E; exact Hm)). lia.
  - right. lia.
Qed.

(** A positive mantissa below [2 ^ B], at an exponent that leaves room,
    rounds to a finite number. *)
Lemma binary_round_aux_finite s m e l B :
  emin <= e -> Zpos m < 2 ^ B -> 0 <= B ->
  Z.max e (B + e - prec) + Z.max 0 (B + 1 - prec) <= emax - prec ->
  exists m' e', binary_round_aux prec emax s (Zpos m) e l = S754_finite s m' e'
                /\ emin <= e'.
Proof.
  intros He Hm HB Hroom. unfold binary_round_aux.
  destruct (shr_fexp_pos prec emax prec_pos m e l He) as [H1 H2].
  destruct (shr_fexp_upper (Zpos m) e l ltac:(lia)) as [U1 U2].
  pose proof (digits2_pos_le m B Hm) as Hd.
  cbn [Zdigits2] in U2.
  destruct (shr_fexp prec emax (Zpos m) e l) as [mrs' e1]; cbn [fst snd] in *.
  assert (He1 : e1 <= Z.max e (B + e - prec))
    by (unfold fexp in U2; lia).
  pose proof (round_nearest_even_ge (shr_m mrs') (loc_of_shr_record mrs')) as Hr.
  assert (Hr' : round_nearest_even (shr_m mrs') (loc_of_shr_record mrs')
                <= shr_m mrs' + 1).
  { destruct (loc_of_shr_record mrs') as [ | [ | | ]];
      cbn [round_nearest_even]; try destruct (Z.even (shr_m mrs')); lia. }
  destruct (round_nearest_even (shr_m mrs') (loc_of_shr_record mrs'))
    as [ | m2 | m2]; try lia.
  assert (Hm2 : Zpos m2 < 2 ^ (B + 1)).
  { rewrite Z.pow_add_r, Z.pow_1_r by lia. lia. }
  pose proof (digits2_pos_le m2 (B + 1) Hm2) as Hd2.
  destruct (shr_fexp_pos prec emax prec_pos m2 e1 loc_Exact H2) as [H3 H4].
  destruct (shr_fexp_upper (Zpos m2) e1 loc_Exact ltac:(lia)) as [_ U3].
  cbn [Zdigits2] in U3.
  destruct (shr_fexp prec emax (Zpos m2) e1 loc_Exact) as [mrs'' e2];
    cbn [fst snd] in *.
  destruct (shr_m mrs'') as [ | m3 | m3]; try lia.
  assert (He2 : e2 <= emax - prec) by (unfold fexp in U3; lia).
  apply Z.leb_le in He2. rewrite He2. eauto.
Qed.

End Rounding_bounds.

(** ** Small integers as Numbers *)

Module JsNumberExact.
Import JsNumber JsNumberFacts.

Lemma of_Z_explicit z : 0 < z < 2 ^ 53 ->
  exists m,
    of_Z z = S754_finite false m (Zdigits2 z - 53)
    /\ Zpos m = z * 2 ^ (53 - Zdigits2 z)
    /\ Zpos (digits2_pos m) = 53
    /\ 1 <= Zdigits2 z <= 53.
Proof.
  intros [Hz Hz']. destruct z as [ | p | p]; try lia.
  destruct (binary_round_integer_explicit prec emax binary64_prec_pos
              binary64_prec_lt_emax false p Hz') as (m & E & Hm & Hd).
  exists m. cbn [Zdigits2]. repeat split; try assumption; try lia.
  apply (digits2_pos_le p 53 Hz').
Qed.

(** The difference of two such integers is computed exactly. *)
Lemma sub_of_Z a b : 0 < b -> b < a -> a < 2 ^ 53 ->
  sub (of_Z a) (of_Z b) = of_Z (a - b).
Proof.
  intros Hb Hab Ha.
  destruct (of_Z_explicit a ltac:(lia)) as (ma & -> & Hma & _ & Hda).
  destruct (of_Z_explicit b ltac:(lia)) as (mb & -> & Hmb & _ & Hdb).
  set (da := Zdigits2 a) in *. set (db := Zdigits2 b) in *.
  unfold sub, SFsub. cbv beta iota zeta. cbn [cond_Zopp].
  set (ez := Z.min (da - 53) (db - 53)).
  rewrite !shl_align_value by (subst ez; lia).
  assert (Ea : Zpos ma * 2 ^ (da - 53 - ez) = a * 2 ^ (- ez)).
  { rewrite Hma, <- Z.mul_assoc, <- Z.pow_add_r by (subst ez; lia).
    f_equal. f_equal. lia. }
  assert (Eb : Zpos mb * 2 ^ (db - 53 - ez) = b * 2 ^ (- ez)).
  { rewrite Hmb, <- Z.mul_assoc, <- Z.pow_add_r by (subst ez; lia).
    f_equal. f_equal. lia. }
  rewrite Ea, Eb, <- Z.mul_sub_distr_r.
  assert (Hpow : 0 < 2 ^ (- ez))
    by (apply Z.pow_pos_nonneg; subst ez; lia).
  destruct (a - b) as [ | n | n] eqn:En; try lia.
  destruct (Zpos n * 2 ^ (- ez)) as [ | p | p] eqn:Ep; try lia.
  cbn [binary_normalize]. unfold of_Z. cbn [binary_normalize].
  pose proof (binary_round_scaled prec emax binary64_prec_pos
                binary64_prec_lt_emax false p n (- ez)) as H.
  rewrite Z.opp_involutive in H. apply H.
  - subst ez; lia.
  - unfold SpecFloat.emin, prec, emax. subst ez. lia.
  - symmetry. exact Ep.
  - unfold prec. lia.
Qed.

(** The quotient of two such integers is a positive finite Number. *)
Lemma div_of_Z_finite n k : 0 < n < 2 ^ 53 -> 0 < k < 2 ^ 53 ->
  exists m e, div (of_Z n) (of_Z k) = S754_finite false m e
              /\ emin prec emax <= e.
Proof.
  intros Hn Hk.
  destruct (of_Z_explicit n Hn) as (m1 & -> & Hm1 & Hd1 & Hdn).
  destruct (of_Z_explicit k Hk) as (m2 & -> & Hm2 & Hd2 & Hdk).
  set (dn := Zdigits2 n) in *. set (dk := Zdigits2 k) in *.
  pose proof (digits2_pos_lower m1) as L1. rewrite Hd1 in L1.
  pose proof (digits2_pos_lower m2) as L2. rewrite Hd2 in L2.
  pose proof (digits2_pos_upper m1) as U1. rewrite Hd1 in U1.
  pose proof (digits2_pos_upper m2) as U2. rewrite Hd2 in U2.
  unfold div, SFdiv, SFdiv_core_binary. cbv zeta. cbn [Zdigits2].
  rewrite Hd1, Hd2.
  set (e' := Z.min (fexp prec emax (53 + (dn - 53) - (53 + (dk - 53))))
                   (dn - 53 - (dk - 53))).
  assert (He' : e' = dn - dk - 53).
  { subst e'. unfold fexp, SpecFloat.emin, prec, emax. lia. }
  replace (dn - 53 - (dk - 53) - e') with 53 by lia.
  rewrite Z.shiftl_mul_pow2 by lia.
  change (2 ^ (53 - 1)) with 4503599627370496 in *.
  change (2 ^ 53) with 9007199254740992 in *.
  assert (Hq1 : 1 <= Zpos m1 * 9007199254740992 / Zpos m2)
    by (apply Z.div_le_lower_bound; nia).
  assert (Hq2 : Zpos m1 * 9007199254740992 / Zpos m2 < 2 ^ 54).
  { apply Z.div_lt_upper_bound; [lia | ].
    change (2 ^ 54) with 18014398509481984. nia. }
  unfold Z.div in Hq1, Hq2.
  destruct (Z.div_eucl (Zpos m1 * 9007199254740992) (Zpos m2)) as [q r].
  destruct q as [ | q | q]; try lia.
  cbn [xorb].
  apply (binary_round_aux_finite prec emax binary64_prec_pos false q e'
           (new_location (Zpos m2) r) 54).
  - unfold SpecFloat.emin, prec, emax. lia.
  - exact Hq2.
  - lia.
  - unfold prec, emax. lia.
Qed.

Lemma div_eucl_exact a b : 0 < b -> Z.div_eucl (a * b) b = (a, 0).
Proof.
  intros Hb. destruct (Z.div_eucl (a * b) b) as [q r] eqn:E.
  assert (Hq : q = a * b / b) by (unfold Z.div; rewrite E; reflexivity).
  assert (Hr : r = (a * b) mod b) by (unfold Z.modulo; rewrite E; reflexivity).
  rewrite Z.div_mul in Hq by lia. rewrite Z.mod_mul in Hr by lia.
  congruence.
Qed.

Lemma new_location_exact nb : new_location nb 0 = loc_Exact.
Proof.
  unfold new_location, new_location_even, new_location_odd.
  destruct (Z.even nb); reflexivity.
Qed.

(** A Number divided by itself is 1. *)
Lemma div_self n : 0 < n < 2 ^ 53 -> div (of_Z n) (of_Z n) = one.
Proof.
  intros Hn.
  destruct (of_Z_explicit n Hn) as (m & -> & Hm & Hd & Hdn).
  set (dn := Zdigits2 n) in *.
  unfold div, SFdiv, SFdiv_core_binary. cbv zeta. cbn [Zdigits2].
  rewrite Hd.
  replace (Z.min (fexp prec emax (53 + (dn - 53) - (53 + (dn - 53))))
                 (dn - 53 - (dn - 53))) with (-53)
    by (unfold fexp, SpecFloat.emin, prec, emax; lia).
  replace (dn - 53 - (dn - 53) - -53) with 53 by lia.
  rewrite Z.shiftl_mul_pow2 by lia.
  rewrite (Z.mul_comm (Zpos m)), div_eucl_exact by lia.
  rewrite new_location_exact. vm_compute. reflexivity.
Qed.

(** A Number divided by 1 is itself. *)
Lemma div_one n : 0 < n < 2 ^ 53 -> div (of_Z n) one = of_Z n.
Proof.
  intros Hn.
  destruct (of_Z_explicit n Hn) as (m & -> & Hm & Hd & Hdn).
  set (dn := Zdigits2 n) in *.
  change one with (S754_finite false 4503599627370496 (-52)).
  unfold div, SFdiv, SFdiv_core_binary. cbv zeta. cbn [Zdigits2].
  rewrite Hd. change (Zpos (digits2_pos 4503599627370496)) with 53.
  replace (Z.min (fexp prec emax (53 + (dn - 53) - (53 + -52)))
                 (dn - 53 - -52)) with (dn - 54)
    by (unfold fexp, SpecFloat.emin, prec, emax; lia).
  replace (dn - 53 - -52 - (dn - 54)) with 53 by lia.
  rewrite Z.shiftl_mul_pow2 by lia.
  change (2 ^ 53) with (2 * 4503599627370496).
  rewrite Z.mul_assoc, div_eucl_exact by lia.
  rewrite new_location_exact. cbn [xorb].
  replace (Zpos m * 2) with (Zpos m~0) by lia.
  unfold binary_round_aux, shr_fexp, shr.
  cbn [Zdigits2 digits2_pos shr_record_of_loc].
  rewrite Pos2Z.inj_succ, Hd.
  replace (fexp prec emax (Z.succ 53 + (dn - 54)) - (dn - 54)) with 1
    by (unfold fexp, SpecFloat.emin, prec, emax; lia).
  cbn [iter_pos shr_1 orb shr_m loc_of_shr_record round_nearest_even
       Zdigits2 shr_record_of_loc].
  rewrite Hd.
  replace (fexp prec emax (53 + (dn - 54 + 1)) - (dn - 54 + 1)) with 0
    by (unfold fexp, SpecFloat.emin, prec, emax; lia).
  cbn [shr_m].
  replace (dn - 54 + 1 <=? emax - prec) with true
    by (symmetry; apply Z.leb_le; unfold emax, prec; lia).
  f_equal. lia.
Qed.

End JsNumberExact.

(** ** Scores with at least two users *)

Module PopularityMore.
Import JsNumber JsNumberFacts JsNumberExact PopularityFacts.

Lemma small_length n : Z.of_nat n < 2 ^ 32 -> Z.of_nat n < 2 ^ 53.
Proof.
  intros H. assert (2 ^ 32 < 2 ^ 53) by reflexivity. lia.
Qed.

(** With two users or more the denominator is the positive integer
    [totalUsers - 1], exactly. *)
Lemma denominator_two_users k : (2 <= k)%nat -> Z.of_nat k < 2 ^ 53 ->
  sub (of_nat k) one = of_Z (Z.of_nat k - 1).
Proof.
  intros Hk Hb. unfold of_nat, one. apply sub_of_Z; lia.
Qed.

Lemma rawScore_no_like k : (2 <= k)%nat -> Z.of_nat k < 2 ^ 53 ->
  rawScore 0 k = zero.
Proof.
  intros Hk Hb. unfold rawScore. rewrite denominator_two_users by assumption.
  destruct (of_Z_explicit (Z.of_nat k - 1) ltac:(lia)) as (m & -> & _).
  reflexivity.
Qed.

Lemma rawScore_likes n k :
  (0 < n)%nat -> Z.of_nat n < 2 ^ 53 ->
  (2 <= k)%nat -> Z.of_nat k < 2 ^ 53 ->
  exists m e, rawScore n k = S754_finite false m e /\ emin prec emax <= e.
Proof.
  intros Hn Hnb Hk Hkb. unfold rawScore.
  rewrite denominator_two_users by assumption.
  apply div_of_Z_finite; lia.
Qed.

Lemma clamp_idle n k :
  Z.of_nat n < 2 ^ 53 -> (2 <= k)%nat -> Z.of_nat k < 2 ^ 53 ->
  clamp (rawScore n k) = rawScore n k.
Proof.
  intros Hnb Hk Hkb. destruct n as [ | n].
  - rewrite rawScore_no_like by assumption. reflexivity.
  - destruct (rawScore_likes (S n) k ltac:(lia) Hnb Hk Hkb) as (m & e & -> & _).
    reflexivity.
Qed.

Lemma clamp_ge q : ge (clamp q) zero = true.
Proof.
  unfold clamp. destruct (ge q zero) eqn:E; [exact E | reflexivity].
Qed.

End PopularityMore.

(** ** More on sorting *)

Lemma StronglySorted_later (A : Type) (R : A -> A -> Prop) l1 : forall b l2 a,
  StronglySorted R (l1 ++ b :: l2) -> In a l2 -> R b a.
Proof.
  induction l1 as [ | x l1 IH]; intros b l2 a Hs Hin; cbn in Hs.
  - apply StronglySorted_inv in Hs as [_ Hb].
    rewrite Forall_forall in Hb. apply Hb, Hin.
  - apply StronglySorted_inv in Hs as [Hs _]. eapply IH; eassumption.
Qed.

(** A list that is already ordered is returned as it is. *)
Lemma Array_sort_ordered (A : Type) (comparefn : A -> A -> Number) l :
  Consistent comparefn ->
  StronglySorted (fun a b => JsNumber.sign (comparefn a b) <> Gt) l ->
  Array_sort comparefn l = l.
Proof.
  intros Hc Hs. apply (stable_sorted_unique comparefn Hc).
  - apply Array_sort_sorted, Hc.
  - exact Hs.
  - intros z. apply Array_sort_stable, Hc.
Qed.

(** ** More on the popularity listing *)

Module PopularityListing.
Import JsNumber JsNumberFacts PopularityFacts PopularityMore ComparatorFacts.

Lemma score_two_users users post :
  (2 <= List.length users)%nat ->
  Z.of_nat (List.length users) < 2 ^ 32 ->
  Z.of_nat (likeCount post) < 2 ^ 32 ->
  popularity (popularityOf users post)
  = rawScore (likeCount post) (List.length users)
  /\ (likeCount post = 0%nat -> popularity (popularityOf users post) = zero)
  /\ ((0 < likeCount post)%nat ->
      exists m e,
        popularity (popularityOf users post) = S754_finite false m e
        /\ Ext_compare (Real 0) (value (popularity (popularityOf users post)))
           = Lt).
Proof.
  intros Hk Hkb Hnb.
  apply small_length in Hkb. apply small_length in Hnb.
  rewrite popularityOf_spec. cbn [popularity].
  rewrite clamp_idle by assumption.
  split; [reflexivity | split].
  - intros E. rewrite E. apply rawScore_no_like; assumption.
  - intros Hn.
    destruct (rawScore_likes _ _ Hn Hnb Hk Hkb) as (m & e & -> & He).
    exists m, e. split; [reflexivity | ].
    cbn [value Ext_compare]. unfold units, cond_Zopp.
    apply Z.compare_lt_iff. apply Z.mul_pos_pos; [lia | ].
    apply Z.pow_pos_nonneg; lia.
Qed.

(** In a snapshot with distinct ids a post is looked up with its own
    score. *)
Lemma popularityLookup_own posts users p :
  NoDup (map id posts) -> In p posts ->
  value (popularityLookup (computePopularity posts users) p)
  = value (popularity (popularityOf users p)).
Proof.
  intros Hnd Hp. apply popularityLookup_found, find_popularityOf; assumption.
Qed.

Section With_strings.
Context {strings : JsStrings}.

Lemma popularity_desc_sorted q w :
  StronglySorted
    (fun a b =>
       Ext_le
         (value (popularityLookup
                   (computePopularity (stored_posts w) (stored_users w)) b))
         (value (popularityLookup
                   (computePopularity (stored_posts w) (stored_users w)) a)))
    (listPosts (Some "popularidad-desc"%string) q w).
Proof.
  pose proof (computePopularity_usable (stored_posts w) (stored_users w))
    as Hu.
  unfold listPosts. rewrite readAll_popularidad_desc. cbn [fst].
  eapply StronglySorted_impl;
    [ | apply Array_sort_sorted, byPopularity_desc_consistent, Hu].
  intros a b _ _ H. unfold Ext_le.
  rewrite <- byPopularity_sign_desc by exact Hu. exact H.
Qed.

Lemma popularity_asc_sorted q w :
  StronglySorted
    (fun a b =>
       Ext_le
         (value (popularityLookup
                   (computePopularity (stored_posts w) (stored_users w)) a))
         (value (popularityLookup
                   (computePopularity (stored_posts w) (stored_users w)) b)))
    (listPosts (Some "popularidad-asc"%string) q w).
Proof.
  pose proof (computePopularity_usable (stored_posts w) (stored_users w))
    as Hu.
  unfold listPosts. rewrite readAll_popularidad_asc. cbn [fst].
  eapply StronglySorted_impl;
    [ | apply Array_sort_sorted, byPopularity_asc_consistent, Hu].
  intros a b _ _ H. unfold Ext_le.
  rewrite <- byPopularity_sign_asc by exact Hu. exact H.
Qed.

End With_strings.

End PopularityListing.

(** ** The listing as one sort *)

Section Listing_as_sort.
Context {strings : JsStrings}.

Lemma listPosts_orderComparator order q w :
  listPosts order q w
  = Array_sort (orderComparator order w) (searchFilter q (stored_posts w)).
Proof.
  unfold listPosts, orderComparator, readAll, bind, ReadAllPosts_execute,
    postRepository_readAll.
  destruct order as [o | ]; [ | reflexivity].
  destruct (o =? "nombre-asc")%string; [reflexivity | ].
  destruct (o =? "nombre-desc")%string; [reflexivity | ].
  destruct ((o =? "popularidad-asc") || (o =? "popularidad-desc"))%string;
    reflexivity.
Qed.

Lemma orderComparator_consistent order w :
  Consistent localeCompare -> Consistent (orderComparator order w).
Proof.
  intros Hc. unfold orderComparator.
  destruct order as [o | ]; [ | apply DateFacts.byDateDesc_consistent].
  destruct (o =? "nombre-asc")%string; [apply byTitleAsc_consistent, Hc | ].
  destruct (o =? "nombre-desc")%string.
  { apply (Consistent_swap Post byTitleAsc), byTitleAsc_consistent, Hc. }
  destruct ((o =? "popularidad-asc") || (o =? "popularidad-desc"))%string
    eqn:E; [ | apply DateFacts.byDateDesc_consistent].
  apply orb_true_iff in E as [E | E]; apply String.eqb_eq in E; subst o.
  - apply ComparatorFacts.byPopularity_asc_consistent,
      PopularityFacts.computePopularity_usable.
  - apply ComparatorFacts.byPopularity_desc_consistent,
      PopularityFacts.computePopularity_usable.
Qed.

Lemma matchesSearch_lower q1 q2 post :
  toLowerCase q1 = toLowerCase q2 ->
  matchesSearch q1 post = matchesSearch q2 post.
Proof. intros H. unfold matchesSearch. rewrite H. reflexivity. Qed.

End Listing_as_sort.

(** ** The write handlers, run on sample requests *)

Module HandlerTests.
Import SampleRequests.

(** The author restores a soft-deleted post. *)
Example soft_delete_by_author :
  delete parseInt collaborators "2" (Some "soft"%string) (Some ben)
  = ([ReadById_execute (Some 2);
      postRepository_update_deleted (Some 2) false;
      Respond 200 (PostBody (with_deleted false Sample.apple))],
     Fulfilled tt).
Proof. reflexivity. Qed.

Example hard_delete_by_author :
  delete parseInt collaborators "2" (Some "hard"%string) (Some ben)
  = ([ReadById_execute (Some 2);
      Respond 403 (Message "Forbidden");
      Unhandled (UnauthorizedError "user not authorized for hardDelete")],
     Fulfilled tt).
Proof. reflexivity. Qed.

Example hard_delete_by_admin :
  delete parseInt collaborators "2" (Some "hard"%string) (Some admin)
  = ([ReadById_execute (Some 2);
      postRepository_delete (Some 2);
      Respond 200 (PostBody Sample.apple)],
     Fulfilled tt).
Proof. reflexivity. Qed.

Example delete_missing_post :
  delete parseInt collaborators "9" (Some "soft"%string) (Some admin)
  = ([ReadById_execute (Some 9);
      Respond 404 (Message "Post not found");
      Next (FindDbError "Post")],
     Fulfilled tt).
Proof. reflexivity. Qed.

Example delete_unknown_type :
  delete parseInt collaborators "2" (Some "purge"%string) (Some admin)
  = ([ReadById_execute (Some 2);
      Respond 400 (Message "Invalid delete type")],
     Fulfilled tt).
Proof. reflexivity. Qed.

Example update_with_foreign_user_id :
  update (fun s => s) parseInt collaborators "1" "t"%string "c"%string
    "1"%string (Some ben)
  = ([Respond 401 (Message "Unauthorized");
      Next (UnauthorizedError "user jwt invalid")],
     Fulfilled tt).
Proof. reflexivity. Qed.

Example create_without_token :
  create collaborators "t"%string "c"%string "a"%string None
  = ([Respond 401 (Message "Sin autorización: Token no provisto");
      Next (UnauthorizedError "user not set in jwt")],
     Fulfilled tt).
Proof. reflexivity. Qed.

End HandlerTests.

(* ================================================================== *)
(** * Part V: further properties of the code *)

Module Extras.
Import JsNumber JsNumberFacts PopularityFacts PopularityMore.
Import ComparatorFacts DateFacts PopularityListing.

(** ** Popularity *)

(** X1. Every score that [computePopularity] returns passes [>= 0]: whatever
    the posts and the users, no score is NaN and none is below zero. *)
Theorem popularity_never_negative (posts : list Post) (users : list User) :
  Forall (fun entry =>
            ge (popularity entry) zero = true
            /\ is_nan (popularity entry) = false
            /\ Ext_le (Real 0) (value (popularity entry)))
         (computePopularity posts users).
Proof.
  unfold computePopularity. apply Forall_map, Forall_forall. intros post _.
  rewrite popularityOf_spec. cbn [popularity].
  split; [apply clamp_ge | split; [apply clamp_not_nan | apply clamp_nonneg]].
Qed.

(** X2. With at least two users the clamp never fires: the score of a post
    is the quotient itself, a finite Number; it is 0 for a post without
    likes and a positive Number for a post with likes.  (Array lengths are
    below [2 ^ 32].) *)
Theorem popularity_with_two_users (users : list User) (post : Post) :
  (2 <= List.length users)%nat ->
  Z.of_nat (List.length users) < 2 ^ 32 ->
  Z.of_nat (likeCount post) < 2 ^ 32 ->
  popularity (popularityOf users post)
  = rawScore (likeCount post) (List.length users)
  /\ (likeCount post = 0%nat -> popularity (popularityOf users post) = zero)
  /\ ((0 < likeCount post)%nat ->
      exists m e,
        popularity (popularityOf users post) = S754_finite false m e
        /\ Ext_compare (Real 0) (value (popularity (popularityOf users post)))
           = Lt).
Proof. apply score_two_users. Qed.

Lemma popularity_with_two_users_witness :
  popularity (popularityOf Sample.users Sample.cherry) = zero.
Proof.
  destruct (popularity_with_two_users Sample.users Sample.cherry)
    as (_ & H & _).
  - cbn. lia.
  - cbn. lia.
  - cbn. lia.
  - apply H. reflexivity.
Defined.

(** X17. The score is normalised by the number of other users: a post
    with as many likes as there are other users scores exactly 1, and with
    exactly two users the score of a post is its number of likes.  (Array
    lengths are below [2 ^ 32].) *)
Theorem popularity_is_normalised (users : list User) (post : Post) :
  (2 <= List.length users)%nat ->
  Z.of_nat (List.length users) < 2 ^ 32 ->
  (S (likeCount post) = List.length users ->
   popularity (popularityOf users post) = one)
  /\ (List.length users = 2%nat -> Z.of_nat (likeCount post) < 2 ^ 32 ->
      popularity (popularityOf users post) = of_nat (likeCount post)).
Proof.
  intros Hk Hkb. apply small_length in Hkb.
  rewrite popularityOf_spec. cbn [popularity]. split.
  - intros E.
    rewrite clamp_idle by (try assumption; lia).
    unfold rawScore. rewrite denominator_two_users by assumption.
    unfold of_nat. replace (Z.of_nat (List.length users) - 1)
      with (Z.of_nat (likeCount post)) by lia.
    apply JsNumberExact.div_self. lia.
  - intros E Hnb. apply small_length in Hnb.
    rewrite clamp_idle by assumption.
    destruct (likeCount post) as [ | n] eqn:En.
    + apply rawScore_no_like; assumption.
    + unfold rawScore. rewrite denominator_two_users by assumption.
      rewrite E. change (Z.of_nat 2 - 1) with 1. fold one.
      apply JsNumberExact.div_one. lia.
Qed.

Lemma popularity_is_normalised_witness :
  popularity (popularityOf Sample.users Sample.banana) = one.
Proof.
  destruct (popularity_is_normalised Sample.users Sample.banana) as [H _].
  - cbn. lia.
  - reflexivity.
  - apply H. reflexivity.
Defined.

(** X4. [PostsPopularity.execute] fetches the posts once, then the users
    once, and does nothing else to the repositories; it answers with one
    entry per stored post, in the order of the stored posts. *)
Theorem execute_fetches_each_once (w : World) :
  let (scores, w') := PostsPopularity_execute w in
  calls w' = calls w ++ [PostRepository_readAll; UserRepository_readAll]
  /\ stored_posts w' = stored_posts w
  /\ stored_users w' = stored_users w
  /\ map pp_id scores = map id (stored_posts w)
  /\ (stored_posts w = [] -> scores = []).
Proof.
  cbn. rewrite <- app_assoc. split; [reflexivity | ].
  split; [reflexivity | split; [reflexivity | split]].
  - unfold computePopularity. rewrite map_map. apply map_ext.
    intros post. rewrite popularityOf_spec. reflexivity.
  - intros ->. reflexivity.
Qed.

(** ** Listing *)

Section Listing.
Context {strings : JsStrings}.

(** X3. With at least two users and distinct post ids, ordering by
    popularity separates the posts with likes from those without: under
    "popularidad-desc" only posts without likes come after a post without
    likes, and under "popularidad-asc" only posts without likes come before
    one. *)
Theorem unliked_posts_rank_last
    (q : option string) (w : World) (l1 l2 : list Post) (a b : Post) :
  (2 <= List.length (stored_users w))%nat ->
  Z.of_nat (List.length (stored_users w)) < 2 ^ 32 ->
  Forall (fun p => Z.of_nat (likeCount p) < 2 ^ 32) (stored_posts w) ->
  NoDup (map id (stored_posts w)) ->
  likeCount b = 0%nat ->
  (listPosts (Some "popularidad-desc"%string) q w = l1 ++ b :: l2 ->
   In a l2 -> likeCount a = 0%nat)
  /\ (listPosts (Some "popularidad-asc"%string) q w = l1 ++ a :: l2 ->
      In b l2 -> likeCount a = 0%nat).
Proof.
  intros Hk Hkb Hlikes Hnd Hb.
  rewrite Forall_forall in Hlikes.
  set (scores := computePopularity (stored_posts w) (stored_users w)).
  assert (Hstored : forall o p,
            In p (listPosts o q w) -> In p (stored_posts w)).
  { intros o p Hin. eapply searchFilter_incl, Permutation_in;
      [apply listPosts_perm | exact Hin]. }
  assert (Hzero : forall p, In p (stored_posts w) -> likeCount p = 0%nat ->
            value (popularityLookup scores p) = Real 0).
  { intros p Hp E. unfold scores.
    rewrite (popularityLookup_own _ _ p Hnd Hp).
    destruct (score_two_users (stored_users w) p Hk Hkb (Hlikes p Hp))
      as (_ & H & _).
    rewrite (H E). reflexivity. }
  assert (Hpos : forall p, In p (stored_posts w) -> (0 < likeCount p)%nat ->
            Ext_compare (Real 0) (value (popularityLookup scores p)) = Lt).
  { intros p Hp Hn. unfold scores.
    rewrite (popularityLookup_own _ _ p Hnd Hp).
    destruct (score_two_users (stored_users w) p Hk Hkb (Hlikes p Hp))
      as (_ & _ & H).
    destruct (H Hn) as (m & e & _ & Hlt). exact Hlt. }
  assert (Hconclude : forall a0, In a0 (stored_posts w) ->
            In b (stored_posts w) ->
            Ext_le (value (popularityLookup scores a0))
                   (value (popularityLookup scores b)) ->
            likeCount a0 = 0%nat).
  { intros a0 Ia Ib Hle.
    destruct (likeCount a0) as [ | n] eqn:Ea; [reflexivity | exfalso].
    rewrite (Hzero b Ib Hb) in Hle. apply Hle.
    rewrite Ext_compare_antisym, (Hpos a0 Ia) by (rewrite Ea; lia).
    reflexivity. }
  split; intros E Hin.
  - pose proof (popularity_desc_sorted q w) as Sd. rewrite E in Sd.
    apply Hconclude.
    + apply (Hstored (Some "popularidad-desc"%string)). rewrite E.
      apply in_or_app; right; right; exact Hin.
    + apply (Hstored (Some "popularidad-desc"%string)). rewrite E.
      apply in_or_app; right; left; reflexivity.
    + exact (StronglySorted_later _ _ l1 b l2 a Sd Hin).
  - pose proof (popularity_asc_sorted q w) as Sa. rewrite E in Sa.
    apply Hconclude.
    + apply (Hstored (Some "popularidad-asc"%string)). rewrite E.
      apply in_or_app; right; left; reflexivity.
    + apply (Hstored (Some "popularidad-asc"%string)). rewrite E.
      apply in_or_app; right; right; exact Hin.
    + exact (StronglySorted_later _ _ l1 a l2 b Sa Hin).
Qed.

(** X5. Under "nombre-asc" no listed post has a title that [localeCompare]
    puts after the title of a later one, and under "nombre-desc" none has a
    title that it puts before the title of a later one; both listings hold
    exactly the filtered posts.  ([localeCompare] is taken to be a
    consistent comparator.) *)
Theorem listPosts_by_name (q : option string) (w : World) :
  Consistent localeCompare ->
  (Permutation (listPosts (Some "nombre-asc"%string) q w)
     (searchFilter q (stored_posts w))
   /\ StronglySorted
        (fun a b => sign (localeCompare (title a) (title b)) <> Gt)
        (listPosts (Some "nombre-asc"%string) q w))
  /\ (Permutation (listPosts (Some "nombre-desc"%string) q w)
        (searchFilter q (stored_posts w))
      /\ StronglySorted
           (fun a b => sign (localeCompare (title a) (title b)) <> Lt)
           (listPosts (Some "nombre-desc"%string) q w)).
Proof.
  intros Hc.
  pose proof (byTitleAsc_consistent Hc) as Hasc.
  split; (split; [apply listPosts_perm | ]).
  - unfold listPosts. rewrite readAll_nombre_asc. cbn [fst].
    apply (Array_sort_sorted byTitleAsc Hasc).
  - unfold listPosts. rewrite readAll_nombre_desc. cbn [fst].
    eapply StronglySorted_impl;
      [ | apply (Array_sort_sorted byTitleDesc
                   (Consistent_swap Post byTitleAsc Hasc))].
    intros a b _ _ H. cbv beta in H. unfold byTitleDesc in H.
    rewrite (consistent_antisym Hc (title b) (title a)).
    destruct (sign (localeCompare (title b) (title a))); cbn; congruence.
Qed.

(** X6. Posts that the comparator of the order key ties keep the order they
    have in the filtered snapshot, for every key: equal titles, equal
    looked-up popularity or equal creation time never reorder two posts.
    Two posts tie under the default key exactly when their time values are
    equal. *)
Theorem listPosts_ties_keep_order
    (order : option string) (q : option string) (w : World) (z : Post) :
  Consistent localeCompare ->
  filter (tied (orderComparator order w) z) (listPosts order q w)
  = filter (tied (orderComparator order w) z)
      (searchFilter q (stored_posts w))
  /\ (forall a b,
        tied byDateDesc a b
        = (timeValue (date a) =? timeValue (date b))).
Proof.
  intros Hc. split.
  - rewrite listPosts_orderComparator.
    apply Array_sort_stable, orderComparator_consistent, Hc.
  - intros a b. unfold tied. rewrite byDateDesc_sign.
    destruct (Z.compare_spec (timeValue (date b)) (timeValue (date a)));
      symmetry; [apply Z.eqb_eq | apply Z.eqb_neq | apply Z.eqb_neq]; lia.
Qed.

(** X7. The order key only permutes the listing: two keys list the same
    posts for the same query.  Without a query, or with the empty string,
    the listing is a permutation of the whole snapshot; it is never longer
    than the snapshot, and it is empty for an empty store. *)
Theorem listPosts_order_only_permutes
    (order order' : option string) (q : option string) (w : World) :
  Permutation (listPosts order q w) (listPosts order' q w)
  /\ Permutation (listPosts order None w) (stored_posts w)
  /\ Permutation (listPosts order (Some ""%string) w) (stored_posts w)
  /\ (List.length (listPosts order q w) <= List.length (stored_posts w))%nat
  /\ (stored_posts w = [] -> listPosts order q w = []).
Proof.
  split; [rewrite !listPosts_perm; reflexivity | ].
  split; [apply listPosts_perm | ].
  split; [apply listPosts_perm | ].
  assert (Hlen : (List.length (searchFilter q (stored_posts w))
                  <= List.length (stored_posts w))%nat).
  { unfold searchFilter. destruct (truthy_string q); [ | lia].
    destruct q as [s | ]; [apply filter_length_le | lia]. }
  split.
  - rewrite (Permutation_length (listPosts_perm order q w)). exact Hlen.
  - intros E.
    pose proof (Permutation_length (listPosts_perm order q w)) as Hl.
    rewrite E in Hlen, Hl. cbn [List.length] in Hlen.
    destruct (listPosts order q w); [reflexivity | cbn [List.length] in Hl; lia].
Qed.

(** X8. The search ignores the case of the query: two non-empty queries
    with the same lower-case form give the same listing. *)
Theorem listPosts_search_ignores_query_case
    (order : option string) (q1 q2 : string) (w : World) :
  q1 <> ""%string -> q2 <> ""%string ->
  toLowerCase q1 = toLowerCase q2 ->
  listPosts order (Some q1) w = listPosts order (Some q2) w.
Proof.
  intros H1 H2 E. rewrite !listPosts_orderComparator.
  rewrite !searchFilter_some by assumption. f_equal.
  apply filter_ext. intros post. apply matchesSearch_lower, E.
Qed.

(** X9. A filtered snapshot that is already in the order of the key is
    listed as it is.  In particular, when the repository answers most
    recent first, the default listing is the filtered snapshot itself. *)
Theorem listPosts_ordered_snapshot_unchanged
    (order : option string) (q : option string) (w : World) :
  Consistent localeCompare ->
  (StronglySorted
     (fun a b => sign (orderComparator order w a b) <> Gt)
     (searchFilter q (stored_posts w)) ->
   listPosts order q w = searchFilter q (stored_posts w))
  /\ (StronglySorted
        (fun a b => timeValue (date b) <= timeValue (date a))
        (searchFilter q (stored_posts w)) ->
      listPosts None q w = searchFilter q (stored_posts w)).
Proof.
  intros Hc. split; intros Hs.
  - rewrite listPosts_orderComparator.
    apply Array_sort_ordered; [apply orderComparator_consistent, Hc | exact Hs].
  - rewrite listPosts_orderComparator.
    apply Array_sort_ordered; [apply byDateDesc_consistent | ].
    eapply StronglySorted_impl; [ | exact Hs].
    intros a b _ _ H. cbn [orderComparator]. rewrite byDateDesc_sign.
    apply Z.compare_le_iff, H.
Qed.

End Listing.

(** ** The write handlers *)

Section Write_handlers.
Variable Value : Type.
Variable ToString : Value -> string.
Variable parseInt : string -> option Z.
Variable collaborators : Collaborators Value.

(** X10. [delete] asks the repository to delete a post only for an existing
    post, an authenticated user whose role is "ADMIN" and the delete type
    "hard"; the id it passes is the parsed [id] parameter. *)
Theorem permanent_delete_only_by_admin
    (id : string) (deleteType : option string) (user : option UserJWT)
    (i : option Z) :
  In (postRepository_delete i)
     (fst (delete parseInt collaborators id deleteType user))
  <-> (exists post u,
         found collaborators (parseInt id) = Some post
         /\ user = Some u
         /\ deleteType = Some "hard"%string
         /\ jwt_role u = "ADMIN"%string
         /\ i = parseInt id).
Proof.
  unfold delete, hardDelete, softDelete, andThen, await, res_status_json,
    throw, try_catch_next, not_awaited.
  destruct (found collaborators (parseInt id)) as [post | ] eqn:Ef.
  2: { cbn. split; [intuition discriminate | intros (p & u & H & _); discriminate]. }
  destruct user as [u | ].
  2: { cbn. split; [intuition discriminate
                   | intros (p & u & _ & H & _); discriminate]. }
  destruct deleteType as [type | ].
  2: { cbn. split; [intuition discriminate
                   | intros (p & u0 & _ & _ & H & _); discriminate]. }
  destruct (type =? "hard")%string eqn:Eh.
  - apply String.eqb_eq in Eh. subst type.
    destruct (jwt_role u =? "ADMIN")%string eqn:Er.
    + apply String.eqb_eq in Er. cbn. split.
      * intros [H | [H | [H | []]]]; try discriminate.
        injection H as <-. exists post, u. auto.
      * intros (p & u0 & _ & _ & _ & _ & ->). auto.
    + apply String.eqb_neq in Er. cbn. split.
      * intuition discriminate.
      * intros (p & u0 & _ & H & _ & Hr & _). congruence.
  - apply String.eqb_neq in Eh.
    assert (Hno : ~ (exists (p : Post) (u0 : UserJWT),
                       Some post = Some p /\ Some u = Some u0
                       /\ Some type = Some "hard"%string
                       /\ jwt_role u0 = "ADMIN"%string /\ i = parseInt id))
      by (intros (p & u0 & _ & _ & H & _); congruence).
    destruct (type =? "soft")%string;
      [destruct ((jwt_id u =? authorId post)
                 || (jwt_role u =? "ADMIN")%string) | ];
      cbn; (split; [intuition discriminate | intros H; destruct (Hno H)]).
Qed.

Ltac delete_cases id deleteType user :=
  unfold delete, hardDelete, softDelete, andThen, await, res_status_json,
    throw, try_catch_next, not_awaited;
  let post := fresh "post" in
  let u := fresh "u" in
  let type := fresh "type" in
  destruct (found collaborators (parseInt id)) as [post | ] eqn:Efound;
    [destruct user as [u | ];
       [destruct deleteType as [type | ];
          [destruct (type =? "hard")%string eqn:Ehard;
             [destruct (jwt_role u =? "ADMIN")%string eqn:Eadmin
             | destruct (type =? "soft")%string eqn:Esoft;
                 [destruct ((jwt_id u =? authorId post)
                            || (jwt_role u =? "ADMIN")%string) eqn:Eallowed
                 | ]]
          | ]
       | ]
    | ];
  cbn [fst snd app filter is_response is_write existsb orb negb In].

(** X11. [delete] asks the repository to flip the [deleted] flag only for
    an existing post, the delete type "soft" and an authenticated user who
    is the author of the post or has the role "ADMIN"; what it sends is the
    negation of the flag of the post it read, so a second soft delete
    restores the post. *)
Theorem soft_delete_toggles
    (id : string) (deleteType : option string) (user : option UserJWT)
    (i : option Z) (flag : bool) :
  In (postRepository_update_deleted i flag)
     (fst (delete parseInt collaborators id deleteType user))
  <-> (exists post u,
         found collaborators (parseInt id) = Some post
         /\ user = Some u
         /\ deleteType = Some "soft"%string
         /\ (jwt_id u = authorId post \/ jwt_role u = "ADMIN"%string)
         /\ i = parseInt id
         /\ flag = negb (deleted post)).
Proof.
  delete_cases id deleteType user;
    try solve [split;
               [intuition discriminate
               | intros (p & u0 & H1 & H2 & H3 & H4 & _);
                 solve [discriminate | injection H3 as ->; discriminate]]].
  - (* soft, allowed *)
    apply String.eqb_eq in Esoft. subst type. split.
    + intros [H | [H | [H | []]]]; try discriminate.
      injection H as <- <-. exists post, u. repeat split; auto.
      apply orb_true_iff in Eallowed as [E | E];
        [left; apply Z.eqb_eq, E | right; apply String.eqb_eq, E].
    + intros (p & u0 & H1 & _ & _ & _ & -> & ->).
      injection H1 as <-. right; left; reflexivity.
  - (* soft, forbidden *)
    split; [intuition discriminate | ].
    intros (p & u0 & H1 & H2 & _ & H4 & _).
    injection H1 as <-. injection H2 as <-.
    apply orb_false_iff in Eallowed as [E1 E2].
    apply Z.eqb_neq in E1. apply String.eqb_neq in E2. tauto.
Qed.

(** X12. Each of [create], [update] and [delete] sends exactly one response
    on every path, and its own promise is always fulfilled: what it throws
    is caught and handed to [next]. *)
Theorem handlers_respond_once
    (id : string) (deleteType : option string)
    (title content authorName userId : Value) (user : option UserJWT) :
  (List.length
     (filter (@is_response Value)
        (fst (create collaborators title content authorName user))) = 1%nat
   /\ snd (create collaborators title content authorName user)
      = Fulfilled tt)
  /\ (List.length
        (filter (@is_response Value)
           (fst (update ToString parseInt collaborators id title content
                   userId user))) = 1%nat
      /\ snd (update ToString parseInt collaborators id title content
                userId user) = Fulfilled tt)
  /\ (List.length
        (filter (@is_response Value)
           (fst (delete parseInt collaborators id deleteType user))) = 1%nat
      /\ snd (delete parseInt collaborators id deleteType user)
         = Fulfilled tt).
Proof.
  split; [ | split].
  - unfold create, andThen, await, res_status_json, throw, try_catch_next.
    destruct user; split; reflexivity.
  - unfold update, andThen, await, res_status_json, throw, try_catch_next.
    destruct (update_refused ToString parseInt userId user);
      split; reflexivity.
  - delete_cases id deleteType user; split; reflexivity.
Qed.

(** X13. A handler asks a collaborator to write exactly when it answers
    with a status below 400: a request refused with 400, 401, 403 or 404
    creates, updates and deletes nothing. *)
Theorem refused_requests_write_nothing
    (id : string) (deleteType : option string)
    (title content authorName userId : Value) (user : option UserJWT)
    (status : Z) (body : Body) :
  (In (Respond status body)
      (fst (create collaborators title content authorName user)) ->
   existsb (@is_write Value)
     (fst (create collaborators title content authorName user))
   = (status <? 400))
  /\ (In (Respond status body)
         (fst (update ToString parseInt collaborators id title content
                 userId user)) ->
      existsb (@is_write Value)
        (fst (update ToString parseInt collaborators id title content
                userId user))
      = (status <? 400))
  /\ (In (Respond status body)
         (fst (delete parseInt collaborators id deleteType user)) ->
      existsb (@is_write Value)
        (fst (delete parseInt collaborators id deleteType user))
      = (status <? 400)).
Proof.
  split; [ | split].
  - unfold create, andThen, await, res_status_json, throw, try_catch_next.
    destruct user; cbn; intros H;
      repeat (destruct H as [H | H]; try discriminate; try contradiction);
      injection H as <- _; reflexivity.
  - unfold update, andThen, await, res_status_json, throw, try_catch_next.
    destruct (update_refused ToString parseInt userId user); cbn; intros H;
      repeat (destruct H as [H | H]; try discriminate; try contradiction);
      injection H as <- _; reflexivity.
  - delete_cases id deleteType user; intros H;
      repeat (destruct H as [H | H]; try discriminate; try contradiction);
      injection H as <- _; reflexivity.
Qed.


(** X15. [update] forwards to the use case exactly when the request is
    authenticated and the parsed [userId] of the body is the id of the
    token; it passes the parsed [id] and the [title] and [content] of the
    body, and it never reads the post it updates. *)
Theorem update_authorization
    (id : string) (title content userId : Value) (user : option UserJWT)
    (i : option Z) (t c : Value) :
  (In (UpdatePost_execute i t c)
      (fst (update ToString parseInt collaborators id title content userId
              user))
   <-> (exists u, user = Some u
                  /\ parseInt (ToString userId) = Some (jwt_id u))
       /\ i = parseInt id /\ t = title /\ c = content)
  /\ (forall j, ~ In (ReadById_execute j)
                   (fst (update ToString parseInt collaborators id title
                           content userId user))).
Proof.
  unfold update, update_refused, andThen, await, res_status_json, throw,
    try_catch_next.
  destruct user as [u | ].
  - destruct (parseInt (ToString userId)) as [n | ] eqn:En.
    + destruct (jwt_id u =? n) eqn:E; cbn.
      * apply Z.eqb_eq in E. split.
        -- split.
           ++ intros [H | [H | []]]; try discriminate.
              injection H as <- <- <-. split; [ | auto].
              exists u. split; congruence.
           ++ intros (_ & -> & -> & ->). left; reflexivity.
        -- intros j [H | [H | []]]; discriminate.
      * apply Z.eqb_neq in E. split.
        -- split; [intuition discriminate | ].
           intros ((u0 & H1 & H2) & _). congruence.
        -- intros j H.
           repeat (destruct H as [H | H]; try discriminate; try contradiction).
    + cbn. split.
      * split; [intuition discriminate | ].
        intros ((u0 & _ & H2) & _). discriminate.
      * intros j H.
        repeat (destruct H as [H | H]; try discriminate; try contradiction).
  - cbn. split.
    + split; [intuition discriminate | ].
      intros ((u0 & H1 & _) & _). discriminate.
    + intros j H.
      repeat (destruct H as [H | H]; try discriminate; try contradiction).
Qed.

(** X16. [create] forwards to the use case exactly when the request is
    authenticated, with the three fields of the body as they came and with
    the id of the token as the author: the body cannot choose the
    author. *)
Theorem create_uses_token_identity
    (title content authorName : Value) (user : option UserJWT)
    (t c a : Value) (userId : Z) :
  In (CreatePost_execute t c a userId)
     (fst (create collaborators title content authorName user))
  <-> (exists u, user = Some u /\ userId = jwt_id u)
      /\ t = title /\ c = content /\ a = authorName.
Proof.
  unfold create, andThen, await, res_status_json, throw, try_catch_next.
  destruct user as [u | ]; cbn.
  - split.
    + intros [H | [H | []]]; try discriminate.
      injection H as <- <- <- <-. split; [exists u | ]; auto.
    + intros ((u0 & H1 & ->) & -> & -> & ->). injection H1 as <-.
      left; reflexivity.
  - split; [intuition discriminate | ].
    intros ((u0 & H1 & _) & _). discriminate.
Qed.

End Write_handlers.

(** ** Witnesses *)

Lemma unliked_posts_rank_last_witness : likeCount Sample.twin2 = 0%nat.
Proof.
  destruct (unliked_posts_rank_last None Sample.twins [] [Sample.twin2]
              Sample.twin2 Sample.twin1) as [H _].
  - cbn. lia.
  - reflexivity.
  - repeat constructor.
  - repeat constructor; cbn; intuition discriminate.
  - reflexivity.
  - apply H; [reflexivity | left; reflexivity].
Defined.

Lemma listPosts_by_name_witness :
  StronglySorted
    (fun a b => sign (localeCompare (title a) (title b)) <> Gt)
    (listPosts (Some "nombre-asc"%string) None Sample.world).
Proof.
  destruct (listPosts_by_name None Sample.world AsciiStrings_consistent)
    as [[_ H] _].
  exact H.
Defined.

Lemma listPosts_ties_keep_order_witness :
  filter (tied (orderComparator (Some "nombre-desc"%string) Sample.twins)
            Sample.twin1)
    (listPosts (Some "nombre-desc"%string) None Sample.twins)
  = [Sample.twin1; Sample.twin2].
Proof.
  destruct (listPosts_ties_keep_order (Some "nombre-desc"%string) None
              Sample.twins Sample.twin1 AsciiStrings_consistent) as [H _].
  rewrite H. reflexivity.
Defined.

Lemma listPosts_search_ignores_query_case_witness :
  listPosts None (Some "FRUIT"%string) Sample.world
  = listPosts None (Some "fruit"%string) Sample.world.
Proof.
  apply listPosts_search_ignores_query_case;
    [discriminate | discriminate | reflexivity].
Defined.

Lemma listPosts_ordered_snapshot_unchanged_witness :
  listPosts None None
    {| stored_posts := [Sample.banana; Sample.cherry; Sample.apple];
       stored_users := Sample.users; calls := [] |}
  = [Sample.banana; Sample.cherry; Sample.apple].
Proof.
  destruct (listPosts_ordered_snapshot_unchanged None None
              {| stored_posts := [Sample.banana; Sample.cherry; Sample.apple];
                 stored_users := Sample.users; calls := [] |}
              AsciiStrings_consistent) as [_ H].
  apply H. repeat constructor; cbn; lia.
Defined.

Lemma refused_requests_write_nothing_witness :
  existsb (@is_write string)
    (fst (create SampleRequests.collaborators "Titulo"%string
            "Contenido"%string "Ana"%string None))
  = false.
Proof.
  destruct (refused_requests_write_nothing string (fun s => s)
              SampleRequests.parseInt SampleRequests.collaborators
              "1"%string None "Titulo"%string "Contenido"%string
              "Ana"%string "1"%string None
              401 (Message "Sin autorización: Token no provisto"))
    as [H _].
  apply H. left; reflexivity.
Defined.


End Extras.
